(** * Kumu portable file i/o (KM_fileio.cpp): a shallow embedding

    The development follows the layout of the source file: result codes,
    the path algebra, the glob matcher, the recursive directory operations
    and the file writer. *)

From Stdlib Require Import List Bool Arith ZArith Lia Ascii String.
Import ListNotations.
Open Scope string_scope.
Open Scope list_scope.

(** ** Result codes (KM_error.h) *)

(** The result values used by KM_fileio.cpp.  KM_error.h is not part of the
    source tree; only the names used by this file are listed. *)
Inductive Result_t : Set :=
| RESULT_OK
| RESULT_FAIL
| RESULT_PTR
| RESULT_NULL_STR
| RESULT_ALLOC
| RESULT_PARAM
| RESULT_NOTAFILE
| RESULT_NO_PERM
| RESULT_FILEOPEN
| RESULT_BADSEEK
| RESULT_READFAIL
| RESULT_WRITEFAIL
| RESULT_STATE
| RESULT_ENDOFFILE
| RESULT_DIR_CREATE
| RESULT_NOT_EMPTY.

(** Modelled from the spec: the macro KM_SUCCESS of KM_error.h is missing
    from the source tree.  Every result other than success is a failure
    kind (EndOfFile included: it ends the directory loops). *)
Definition KM_SUCCESS (r : Result_t) : bool :=
  match r with
  | RESULT_OK => true
  | _ => false
  end.

(** ** Path algebra *)

Module Path.

Definition PathCompList_t := list string.

(** std::string::empty *)
Definition empty (s : string) : bool :=
  match s with
  | EmptyString => true
  | String _ _ => false
  end.

(** The default value of the separator parameters (KM_fileio.h). *)
Definition default_separator : ascii := "/"%char.

(** Modelled from the spec: km_token_split (KM_util.cpp) is missing from the
    source tree.  It cuts the string at every occurrence of the separator
    and keeps every segment, the empty ones too; PathToComponents calls it
    with the one-character string made of the separator. *)
Fixpoint km_token_split (str : string) (separator : ascii) : list string :=
  match str with
  | EmptyString => [EmptyString]
  | String c rest =>
      if Ascii.eqb c separator then EmptyString :: km_token_split rest separator
      else match km_token_split rest separator with
           | tok :: toks => String c tok :: toks
           | [] => [String c EmptyString]
           end
  end.

(** PathToComponents pushes the non-empty tokens onto the back of the list
    it is given. *)
Definition PathToComponents (path : string) (component_list : PathCompList_t)
           (separator : ascii) : PathCompList_t :=
  component_list
    ++ filter (fun i => negb (empty i)) (km_token_split path separator).

(** out_path += separator + *ci *)
Definition append_component (separator : ascii) (out_path ci : string) : string :=
  (out_path ++ String separator ci)%string.

Definition ComponentsToPath (CList : PathCompList_t) (separator : ascii) : string :=
  match CList with
  | [] => ""
  | ci :: rest => fold_left (append_component separator) rest ci
  end.

Definition ComponentsToAbsolutePath (CList : PathCompList_t) (separator : ascii)
  : string :=
  match CList with
  | [] => String separator ""
  | _ :: _ => fold_left (append_component separator) CList ""
  end.

Definition PathIsAbsolute (Path : string) (separator : ascii) : bool :=
  match Path with
  | EmptyString => false
  | String c _ => Ascii.eqb c separator
  end.

(** std::list::pop_back on a non-empty list *)
Definition pop_back (l : PathCompList_t) : PathCompList_t := removelast l.

Fixpoint make_canonical_list (in_list out_list : PathCompList_t) : PathCompList_t :=
  match in_list with
  | [] => out_list
  | i :: rest =>
      if String.eqb i ".." then
        make_canonical_list rest
          (match out_list with
           | [] => out_list
           | _ :: _ => pop_back out_list
           end)
      else if negb (String.eqb i ".") then
        make_canonical_list rest (out_list ++ [i])
      else make_canonical_list rest out_list
  end.

Definition PathMakeCanonical (Path : string) (separator : ascii) : string :=
  let is_absolute := PathIsAbsolute Path separator in
  let in_list := PathToComponents Path [] separator in
  let out_list := make_canonical_list in_list [] in
  if is_absolute then ComponentsToAbsolutePath out_list separator
  else ComponentsToPath out_list separator.

Definition PathJoin (Path1 Path2 : string) (separator : ascii) : string :=
  (Path1 ++ String separator Path2)%string.

(** PathMakeAbsolute reads the working directory through PathCwd; its value
    is the parameter [cwd].  Only the empty case and the absoluteness test
    use [separator]: the other calls are made with the default one. *)
Definition PathMakeAbsolute (cwd : string) (Path : string) (separator : ascii)
  : string :=
  if empty Path then String separator ""
  else if PathIsAbsolute Path separator then PathMakeCanonical Path default_separator
  else
    let in_list :=
      PathToComponents (PathJoin cwd Path default_separator) [] default_separator in
    let out_list := make_canonical_list in_list [] in
    ComponentsToAbsolutePath out_list default_separator.

Definition PathBasename (Path : string) (separator : ascii) : string :=
  let CList := PathToComponents Path [] separator in
  match CList with
  | [] => ""
  | _ :: _ => last CList ""
  end.

(** The characters of s.c_str(): those before the first NUL. *)
Fixpoint c_str (s : string) : string :=
  match s with
  | EmptyString => EmptyString
  | String c rest =>
      if Ascii.eqb c zero then EmptyString else String c (c_str rest)
  end.

(** strrchr(s, ch) - s for a C string s: the offset of the last occurrence
    of [ch], None for the null pointer. *)
Fixpoint strrchr (s : string) (ch : ascii) : option nat :=
  match s with
  | EmptyString => None
  | String c rest =>
      match strrchr rest ch with
      | Some k => Some (S k)
      | None => if Ascii.eqb c ch then Some 0 else None
      end
  end.

Definition PathSetExtension (Path Extension : string) : string :=
  let Basename := PathBasename Path default_separator in
  let p := strrchr (c_str Basename) "."%char in
  let Basename :=
    match p with
    | Some k => substring 0 k Basename
    | None => Basename
    end in
  if empty Extension then Basename
  else (Basename ++ "." ++ Extension)%string.

(** *** Predicates on strings and components used to state the properties *)

(** [contains s c]: the character [c] occurs in [s]. *)
Fixpoint contains (s : string) (c : ascii) : bool :=
  match s with
  | EmptyString => false
  | String x rest => Ascii.eqb x c || contains rest c
  end.

(** A path component: non-empty and free of the separator. *)
Definition component (separator : ascii) (s : string) : Prop :=
  empty s = false /\ contains s separator = false.

(** A component that canonicalization keeps. *)
Definition plain (separator : ascii) (s : string) : Prop :=
  component separator s /\ s <> "." /\ s <> "..".

(** The text the joins add after the first component: every component
    preceded by the separator. *)
Definition tail_path (separator : ascii) (l : list string) : string :=
  fold_left (append_component separator) l "".

(** The component list made of [c] when [c] is not empty. *)
Definition keep_nonempty (c : string) : list string :=
  if empty c then [] else [c].

(** *** The other path functions *)

(** PathsAreEquivalent compares the absolute forms; both calls of
    PathMakeAbsolute use the default separator. *)
Definition PathsAreEquivalent (cwd lhs rhs : string) : bool :=
  String.eqb (PathMakeAbsolute cwd lhs default_separator)
             (PathMakeAbsolute cwd rhs default_separator).

(** std::string::find(str): the offset of the first occurrence, None for
    npos. *)
Definition find (s str : string) : option nat := index 0 str s.

(** std::string::substr(pos): throws std::out_of_range (None) when [pos] is
    beyond the size. *)
Definition substr_from (s : string) (pos : nat) : option string :=
  if Nat.leb pos (String.length s)
  then Some (substring pos (String.length s - pos) s)
  else None.

(** None: the exception of substr leaves the function. *)
Definition PathMakeLocal (Path Parent : string) : option string :=
  match find Path Parent with
  | Some O => substr_from Path (String.length Parent + 1)
  | _ => Some Path
  end.

Definition PathDirname (Path : string) (separator : ascii) : string :=
  let is_absolute := PathIsAbsolute Path separator in
  let CList := PathToComponents Path [] separator in
  match CList with
  | [] => if is_absolute then "/" else ""
  | _ :: _ =>
      let CList := pop_back CList in
      if is_absolute then ComponentsToAbsolutePath CList separator
      else ComponentsToPath CList separator
  end.

(** The result is built from the C string that starts after the last dot. *)
Definition PathGetExtension (Path : string) : string :=
  let Basename := PathBasename Path default_separator in
  match strrchr (c_str Basename) "."%char with
  | None => ""
  | Some k =>
      substring (S k) (String.length (c_str Basename) - S k) (c_str Basename)
  end.

(** [s] holds no NUL character: s.c_str() is all of it. *)
Definition nul_free (s : string) : Prop := contains s zero = false.

(** [suffix s1 s2]: [s2] ends with [s1]. *)
Fixpoint suffix (s1 s2 : string) : bool :=
  String.eqb s1 s2
  || match s2 with
     | String _ s2' => suffix s1 s2'
     | EmptyString => false
     end.

End Path.

(** ** Pattern matcher *)

Module Glob.

Import Path.

(** *** The POSIX regular expressions the glob translation produces

    regcomp and regexec belong to the C library.  The model covers the
    fragment that PathMatchGlob emits: ordinary characters, the dot, escaped
    special characters, the star and a dollar in last position.  [regcomp]
    answers None for a pattern it rejects and for one outside the fragment
    (bracket expressions, groups, a leading circumflex). *)

Inductive re_atom : Set :=
| AnyChar
| Lit (c : ascii).

Inductive re_piece : Set :=
| One (a : re_atom)       (* a   *)
| Many (a : re_atom)      (* a*  *)
| Optional (a : re_atom). (* a?  extended syntax only *)

Record regex_t : Set := mk_regex {
  re_pieces : list re_piece;
  re_anchor_end : bool
}.

(** The cflags that matter to the syntax: REG_EXTENDED set or not.
    PathMatchGlob passes REG_NOSUB alone, which selects the basic syntax. *)
Inductive re_syntax : Set :=
| REG_BASIC
| REG_EXTENDED.

Definition REG_NOSUB : re_syntax := REG_BASIC.

Definition is_one_of (c : ascii) (l : list ascii) : bool :=
  existsb (Ascii.eqb c) l.

(** A star or question mark applied to the piece just read. *)
Definition star_piece (p : re_piece) : re_piece :=
  match p with
  | One a | Many a | Optional a => Many a
  end.

Definition opt_piece (p : re_piece) : re_piece :=
  match p with
  | One a | Optional a => Optional a
  | Many a => Many a
  end.

(** [acc] holds the pieces read so far, the last one first.  In the basic
    syntax a question mark is an ordinary character, a star in first position
    too, and a dollar is an anchor only in last position. *)
Fixpoint regparse (syn : re_syntax) (acc : list re_piece) (s : string)
  : option regex_t :=
  match s with
  | EmptyString => Some (mk_regex (rev acc) false)
  | String c rest =>
      if Ascii.eqb c "\"%char then
        match rest with
        | String e rest' =>
            if is_one_of e ["."; "*"; "["; "]"; "\"; "^"; "$"; "?"]%char
            then match syn, Ascii.eqb e "?"%char with
                 | REG_BASIC, true => None
                 | _, _ => regparse syn (One (Lit e) :: acc) rest'
                 end
            else None
        | EmptyString => None
        end
      else if Ascii.eqb c "."%char then regparse syn (One AnyChar :: acc) rest
      else if Ascii.eqb c "["%char then None
      else if Ascii.eqb c "*"%char then
        match acc with
        | [] => match syn with
                | REG_BASIC => regparse syn [One (Lit c)] rest
                | REG_EXTENDED => None
                end
        | p :: acc' => regparse syn (star_piece p :: acc') rest
        end
      else if Ascii.eqb c "?"%char then
        match syn with
        | REG_BASIC => regparse syn (One (Lit c) :: acc) rest
        | REG_EXTENDED =>
            match acc with
            | [] => None
            | p :: acc' => regparse syn (opt_piece p :: acc') rest
            end
        end
      else if Ascii.eqb c "$"%char then
        match rest with
        | EmptyString => Some (mk_regex (rev acc) true)
        | String _ _ =>
            match syn with
            | REG_BASIC => regparse syn (One (Lit c) :: acc) rest
            | REG_EXTENDED => None
            end
        end
      else if Ascii.eqb c "^"%char then
        match syn, acc with
        | REG_BASIC, _ :: _ => regparse syn (One (Lit c) :: acc) rest
        | _, _ => None
        end
      else if is_one_of c ["+"; "("; ")"; "|"; "{"]%char then
        match syn with
        | REG_BASIC => regparse syn (One (Lit c) :: acc) rest
        | REG_EXTENDED => None
        end
      else regparse syn (One (Lit c) :: acc) rest
  end.

Definition regcomp (regex : string) (cflags : re_syntax) : option regex_t :=
  regparse cflags [] regex.

Definition atom_matches (a : re_atom) (c : ascii) : bool :=
  match a with
  | AnyChar => true
  | Lit c' => Ascii.eqb c c'
  end.

(** Does a prefix of [s] (all of [s] under the end anchor) match [ps]? *)
Fixpoint match_here (ps : list re_piece) (anchor_end : bool) (s : string) : bool :=
  match ps with
  | [] => if anchor_end then empty s else true
  | One a :: ps' =>
      match s with
      | String c s' => atom_matches a c && match_here ps' anchor_end s'
      | EmptyString => false
      end
  | Optional a :: ps' =>
      match_here ps' anchor_end s
      || match s with
         | String c s' => atom_matches a c && match_here ps' anchor_end s'
         | EmptyString => false
         end
  | Many a :: ps' =>
      (fix star (s : string) : bool :=
         match_here ps' anchor_end s
         || match s with
            | String c s' => atom_matches a c && star s'
            | EmptyString => false
            end) s
  end.

(** regexec without REG_NOTBOL: a match may start at any offset. *)
Fixpoint regexec (preg : regex_t) (s : string) : bool :=
  match_here (re_pieces preg) (re_anchor_end preg) s
  || match s with
     | String _ s' => regexec preg s'
     | EmptyString => false
     end.

(** *** PathMatchGlob *)

(** The loop of the constructor over glob.c_str(). *)
Fixpoint glob_to_regex (p : string) : string :=
  match p with
  | EmptyString => EmptyString
  | String c rest =>
      ((if Ascii.eqb c "."%char then "\."
        else if Ascii.eqb c "*"%char then ".*"
        else if Ascii.eqb c "?"%char then ".?"
        else String c EmptyString) ++ glob_to_regex rest)%string
  end.

(** The compiled matcher; None when regcomp failed. *)
Record PathMatchGlob : Set := mk_PathMatchGlob {
  m_regex : option regex_t
}.

(** The constructor, for the cflags given to regcomp (REG_NOSUB in the
    source). *)
Definition PathMatchGlob_new_with (cflags : re_syntax) (glob : string)
  : PathMatchGlob :=
  let regex := (glob_to_regex (c_str glob) ++ "$")%string in
  mk_PathMatchGlob (regcomp (c_str regex) cflags).

Definition PathMatchGlob_new (glob : string) : PathMatchGlob :=
  PathMatchGlob_new_with REG_NOSUB glob.

(** regexec on the compiled pattern.  After a failed regcomp the source
    calls regexec on the regex_t it has freed, which C leaves undefined: the
    value false given here for [None] says nothing of the code, and the
    properties below are stated for patterns that compile, inside the
    fragment [regcomp] covers. *)
Definition Match (m : PathMatchGlob) (s : string) : bool :=
  match m_regex m with
  | Some preg => regexec preg (c_str s)
  | None => false
  end.

(** *** Globs without wildcards *)

(** A character of a glob that stands for itself in the pattern compiled:
    the dot, which the translation escapes, and the characters that neither
    the translation nor the basic syntax treats specially. *)
Definition glob_ordinary (c : ascii) : bool :=
  negb (is_one_of c [zero; "*"; "?"; "\"; "["; "^"; "$"]%char).

Fixpoint all_ordinary (g : string) : bool :=
  match g with
  | EmptyString => true
  | String c rest => glob_ordinary c && all_ordinary rest
  end.

(** One piece for each character of [g]. *)
Fixpoint literal_pieces (g : string) : list re_piece :=
  match g with
  | EmptyString => []
  | String c rest => One (Lit c) :: literal_pieces rest
  end.

End Glob.

(** ** Recursive directory operations *)

Module FS.

Import Path.

(** *** The file system seen through stat, opendir, readdir, unlink, rmdir *)

#[local] Set Warnings "-register-all".

Inductive errno_t : Set :=
| ENOENT | ENOTDIR | EROFS | EBUSY | EACCES | EPERM
| ELOOP | ENAMETOOLONG | EMFILE | ENFILE
| ENOTEMPTY | EISDIR | EIO.

(** What stat finds at a path, by the answer of the test
    st_mode & S_IFDIR that PathIsDirectory makes.  [File] is an entry that
    fails the test (a regular file, a character device, a FIFO); it carries
    the error unlink would report for it.  [Dir] is an entry that passes the
    test; it carries the errors of opendir and rmdir (None: the call is
    allowed) and its entries in the order readdir yields them.  The test is
    a mask on a type field that is a number: a socket or a block device
    passes it too, and is a [Dir] whose opendir and rmdir fail with ENOTDIR
    ([not_a_directory] below).  There are no symbolic links in the tree.
    The entries named "." and ".." of a directory, when listed, stand for
    the directory itself and its parent: the node stored with them is not
    looked at. *)
Inductive node : Set :=
| File (unlink_errno : option errno_t)
| Dir (opendir_errno rmdir_errno : option errno_t) (entries : list (string * node)).

Definition dirent : Set := (string * node)%type.

(** The calls that remove something, as issued. *)
Inductive syscall : Set :=
| sys_unlink (path : string)
| sys_rmdir (path : string).

(** PathIsDirectory on the node stat reports for the path: the mask test
    by which the two kinds of node are told apart. *)
Definition PathIsDirectory (n : node) : bool :=
  match n with
  | Dir _ _ _ => true
  | File _ => false
  end.

(** next_file is "." or "..": the test of h__DeletePath and
    DeleteDirectoryIfEmpty on next_file[0], [1] and [2]. *)
Definition is_this_or_parent (next_file : string) : bool :=
  match next_file with
  | String c0 rest =>
      if Ascii.eqb c0 "."%char then
        match rest with
        | EmptyString => true
        | String c1 rest1 =>
            if Ascii.eqb c1 "."%char then empty rest1 else false
        end
      else false
  | EmptyString => false
  end.

(** unlink(2), which h__DeletePath calls on [File] entries only. *)
Definition os_unlink (n : node) : option errno_t :=
  match n with
  | File e => e
  | Dir _ _ _ => Some EISDIR
  end.

(** rmdir(2) on a directory with the given entries left in it. *)
Definition os_rmdir (rmdir_errno : option errno_t) (entries : list dirent)
  : option errno_t :=
  match rmdir_errno with
  | Some e => Some e
  | None =>
      if existsb (fun e => negb (is_this_or_parent (fst e))) entries
      then Some ENOTEMPTY
      else None
  end.

(** opendir(3) *)
Definition os_opendir (n : node) : option errno_t :=
  match n with
  | File _ => Some ENOTDIR
  | Dir e _ _ => e
  end.

(** *** DirScanner::Open *)
Definition DirScanner_Open (n : node) : Result_t :=
  match os_opendir n with
  | None => RESULT_OK
  | Some ENOENT | Some ENOTDIR => RESULT_NOTAFILE
  | Some EACCES => RESULT_NO_PERM
  | Some ELOOP | Some ENAMETOOLONG => RESULT_PARAM
  | Some EMFILE | Some ENFILE => RESULT_STATE
  | Some _ => RESULT_FAIL
  end.

(** *** DeleteFile

    The outcome, what is left at the path (None once removed) and the call
    issued. *)
Definition DeleteFile (filename : string) (n : node)
  : Result_t * option node * list syscall :=
  match os_unlink n with
  | None => (RESULT_OK, None, [sys_unlink filename])
  | Some e =>
      ((match e with
        | ENOENT | ENOTDIR => RESULT_NOTAFILE
        | EROFS | EBUSY | EACCES | EPERM => RESULT_NO_PERM
        | _ => RESULT_FAIL
        end), Some n, [sys_unlink filename])
  end.

(** The result of the switch on errno after a failed rmdir. *)
Definition rmdir_result (e : errno_t) : Result_t :=
  match e with
  | ENOENT | ENOTDIR => RESULT_NOTAFILE
  | EROFS | EBUSY | EACCES | EPERM => RESULT_NO_PERM
  | _ => RESULT_FAIL
  end.

(** *** h__DeletePath *)

(** The while loop over the entries of the directory [pathname]: [result]
    is the loop variable, [rec] the recursive call.  The loop returns the
    last result, the entries left in the directory and the calls issued. *)
Definition DeletePath_scan
           (rec : string -> node -> Result_t * option node * list syscall)
           (pathname : string)
  : list dirent -> Result_t -> Result_t * list dirent * list syscall :=
  fix scan (es : list dirent) (result : Result_t) :=
    match es with
    | [] => (result, [], [])
    | (next_file, c) :: es' =>
        if negb (KM_SUCCESS result) then (result, es, [])
        else if is_this_or_parent next_file then
          let '(r, rest, calls) := scan es' result in
          (r, (next_file, c) :: rest, calls)
        else
          let '(r1, c', calls1) := rec (pathname ++ "/" ++ next_file)%string c in
          let '(r, rest, calls) := scan es' r1 in
          (r,
           match c' with
           | Some c'' => (next_file, c'') :: rest
           | None => rest
           end,
           calls1 ++ calls)
    end.

(** [n] is what stat reports at [pathname].  Returns the outcome, what is
    left at [pathname] and the calls issued, in order. *)
Fixpoint h__DeletePath (pathname : string) (n : node) {struct n}
  : Result_t * option node * list syscall :=
  if empty pathname then (RESULT_NULL_STR, Some n, [])
  else
    match n with
    | File _ => DeleteFile pathname n
    | Dir od rd entries =>
        let '(result, entries', calls) :=
          DeletePath_scan (fun p c => h__DeletePath p c) pathname entries
                          (DirScanner_Open n) in
        match os_rmdir rd entries' with
        | None => (result, None, calls ++ [sys_rmdir pathname])
        | Some e =>
            (rmdir_result e, Some (Dir od rd entries'),
             calls ++ [sys_rmdir pathname])
        end
    end.

(** *** Path resolution in the tree *)

Fixpoint find_entry (name : string) (es : list dirent) : option node :=
  match es with
  | [] => None
  | (n, c) :: es' => if String.eqb n name then Some c else find_entry name es'
  end.

Fixpoint fs_lookup (root : node) (comps : list string) {struct comps}
  : option node :=
  match comps with
  | [] => Some root
  | c :: rest =>
      match root with
      | Dir _ _ es =>
          match find_entry c es with
          | Some child => fs_lookup child rest
          | None => None
          end
      | File _ => None
      end
  end.

Fixpoint update_entry (name : string) (f : node -> option node) (es : list dirent)
  : list dirent :=
  match es with
  | [] => []
  | (n, c) :: es' =>
      if String.eqb n name then
        match f c with
        | Some c' => (n, c') :: es'
        | None => es'
        end
      else (n, c) :: update_entry name f es'
  end.

(** The tree with the node at [comps] replaced by [new] (None: removed). *)
Fixpoint fs_replace (root : node) (comps : list string) (new : option node)
         {struct comps} : option node :=
  match comps with
  | [] => new
  | c :: rest =>
      match root with
      | Dir od rd es =>
          Some (Dir od rd (update_entry c (fun child => fs_replace child rest new) es))
      | File _ => Some root
      end
  end.

(** *** DeletePath *)

(** std::string c_pathname = PathMakeCanonical(PathMakeAbsolute(pathname)) *)
Definition c_pathname_of (cwd pathname : string) : string :=
  PathMakeCanonical (PathMakeAbsolute cwd pathname default_separator)
                    default_separator.

(** [root] is the tree at "/", [cwd] the working directory.  A path that
    does not resolve is not a directory and its unlink fails with ENOENT or
    ENOTDIR. *)
Definition DeletePath (root : node) (cwd : string) (pathname : string)
  : Result_t * option node * list syscall :=
  let c_pathname := c_pathname_of cwd pathname in
  let comps := PathToComponents c_pathname [] default_separator in
  match fs_lookup root comps with
  | Some n =>
      let '(result, n', calls) := h__DeletePath c_pathname n in
      (result, fs_replace root comps n', calls)
  | None => (RESULT_NOTAFILE, Some root, [sys_unlink c_pathname])
  end.

(** The reading of the tree deletion under which the outcome of DeletePath
    is the result of the first child deletion that fails: [pre] are the
    entries before the failing one, all passed in success. *)
Definition first_failure_is_outcome (root : node) (cwd pathname : string) : Prop :=
  forall rd pre name c post,
    fs_lookup root
              (PathToComponents (c_pathname_of cwd pathname) [] default_separator)
    = Some (Dir None rd (pre ++ (name, c) :: post)) ->
    fst (fst (DeletePath_scan h__DeletePath (c_pathname_of cwd pathname)
                              pre RESULT_OK)) = RESULT_OK ->
    is_this_or_parent name = false ->
    KM_SUCCESS
      (fst (fst (h__DeletePath (c_pathname_of cwd pathname ++ "/" ++ name)%string c)))
    = false ->
    fst (fst (DeletePath root cwd pathname))
    = fst (fst (h__DeletePath (c_pathname_of cwd pathname ++ "/" ++ name)%string c)).

(** *** FindInPath and FindInPaths *)

(** name_buf[0] == '.' *)
Definition is_hidden (name_buf : string) : bool :=
  match name_buf with
  | String c _ => Ascii.eqb c "."%char
  | EmptyString => false
  end.

(** PathIsDirectory(tmp_path) for the entry [c] of the directory scanned:
    the path resolves to the entry when the names were joined with "/". *)
Definition PathIsDirectory_entry (separator : ascii) (c : node) : bool :=
  if Ascii.eqb separator "/"%char then PathIsDirectory c else false.

(** The while loop of FindInPath over the entries of [SearchDir]. *)
Definition FindInPath_scan
           (rec : string -> node -> list string -> list string)
           (Pattern_Match : string -> bool) (SearchDir : string)
           (one_shot : bool) (separator : ascii)
  : list dirent -> list string -> list string :=
  fix scan (es : list dirent) (FoundPaths : list string) :=
    match es with
    | [] => FoundPaths
    | (name_buf, c) :: es' =>
        if is_hidden name_buf then scan es' FoundPaths
        else
          let tmp_path := (SearchDir ++ String separator name_buf)%string in
          if PathIsDirectory_entry separator c then
            scan es' (rec tmp_path c FoundPaths)
          else if Pattern_Match name_buf then
            let FoundPaths := FoundPaths ++ [(SearchDir ++ String separator name_buf)%string] in
            if one_shot then FoundPaths else scan es' FoundPaths
          else scan es' FoundPaths
    end.

(** [n] is the node at [SearchDir]. *)
Fixpoint FindInPath (Pattern_Match : string -> bool) (SearchDir : string) (n : node)
         (FoundPaths : list string) (one_shot : bool) (separator : ascii)
         {struct n} : list string :=
  if KM_SUCCESS (DirScanner_Open n) then
    match n with
    | Dir _ _ entries =>
        FindInPath_scan
          (fun p c found => FindInPath Pattern_Match p c found one_shot separator)
          Pattern_Match SearchDir one_shot separator entries FoundPaths
    | File _ => FoundPaths
    end
  else FoundPaths.

(** The search paths come with the node each resolves to. *)
Fixpoint FindInPaths (Pattern_Match : string -> bool)
         (SearchPaths : list (string * node)) (FoundPaths : list string)
         (one_shot : bool) (separator : ascii) : list string :=
  match SearchPaths with
  | [] => FoundPaths
  | (si, n) :: rest =>
      let FoundPaths := FindInPath Pattern_Match si n FoundPaths one_shot separator in
      if one_shot && negb (match FoundPaths with [] => true | _ => false end)
      then FoundPaths
      else FindInPaths Pattern_Match rest FoundPaths one_shot separator
  end.

(** A directory "/d" holding "a", which unlink refuses with EPERM, and
    "b". *)
Definition tree_protected_child : node :=
  Dir None None
      [("d", Dir None None [("a", File (Some EPERM)); ("b", File None)])].

(** "sub/a.txt" and "b.txt" under the search directory. *)
Definition tree_match_in_subdirectory : node :=
  Dir None None
      [("sub", Dir None None [("a.txt", File None)]); ("b.txt", File None)].

(** A tree with a file, a subdirectory holding a file, and another file,
    listed after the entries "." and "..". *)
Definition tree_unprotected : node :=
  Dir None None
      [(".", File None); ("..", File None); ("a", File None);
       ("s", Dir None None [("b", File None)]); ("c", File None)].

(** A socket or a block device: PathIsDirectory holds for it, opendir and
    rmdir fail with ENOTDIR. *)
Definition not_a_directory : node := Dir (Some ENOTDIR) (Some ENOTDIR) [].

(** *** Trees that nothing protects *)

Definition is_none {A} (o : option A) : bool :=
  match o with
  | None => true
  | Some _ => false
  end.

(** No call on the tree is refused: every entry that fails the
    PathIsDirectory test can be unlinked, every entry that passes it can be
    opened and, once empty, removed.  The second excludes sockets and block
    devices, which opendir refuses. *)
Fixpoint deletable (n : node) : bool :=
  match n with
  | File e => is_none e
  | Dir od rd es =>
      is_none od && is_none rd && forallb (fun e => deletable (snd e)) es
  end.

(** The calls of a post-order walk of the tree at [pathname]: the entries
    in readdir order, "." and ".." left out, then the directory itself. *)
Fixpoint post_order_calls (pathname : string) (n : node) : list syscall :=
  match n with
  | File _ => [sys_unlink pathname]
  | Dir _ _ es =>
      flat_map (fun e =>
                  if is_this_or_parent (fst e) then []
                  else post_order_calls (pathname ++ "/" ++ fst e)%string (snd e))
               es
      ++ [sys_rmdir pathname]
  end.

(** The entries named "." and "..". *)
Definition this_and_parent (es : list dirent) : list dirent :=
  filter (fun e => is_this_or_parent (fst e)) es.

(** *** Paths as the system resolves them

    stat, opendir and mkdir take the path as written.  The walk starts at
    the root for an absolute path and at the working directory otherwise;
    every component is looked up in a directory, "." stays there and ".."
    goes to the parent (the root is its own parent).  The result is the
    place reached, as the list of names from the root. *)

Fixpoint os_walk (root : node) (cur : list string) (comps : list string)
  : option (list string) :=
  match comps with
  | [] => Some cur
  | c :: rest =>
      match fs_lookup root cur with
      | Some (Dir _ _ es) =>
          if String.eqb c "." then os_walk root cur rest
          else if String.eqb c ".." then os_walk root (removelast cur) rest
          else
            match find_entry c es with
            | Some _ => os_walk root (cur ++ [c]) rest
            | None => None
            end
      | _ => None
      end
  end.

(** The place of the working directory whose name getcwd returns. *)
Definition cwd_location (cwd : string) : list string :=
  make_canonical_list (PathToComponents cwd [] default_separator) [].

(** The empty path does not resolve (ENOENT). *)
Definition os_resolve (root : node) (cwd path : string) : option (list string) :=
  if empty path then None
  else
    os_walk root
            (if PathIsAbsolute path default_separator then [] else cwd_location cwd)
            (PathToComponents path [] default_separator).

Definition os_node (root : node) (cwd path : string) : option node :=
  match os_resolve root cwd path with
  | Some loc => fs_lookup root loc
  | None => None
  end.

(** PathIsDirectory(path) on the tree. *)
Definition PathIsDirectory_at (root : node) (cwd path : string) : bool :=
  if empty path then false
  else
    match os_node root cwd path with
    | Some n => PathIsDirectory n
    | None => false
    end.

(** *** DeleteDirectoryIfEmpty *)

(** The while loop over the entries: true when an entry other than "." and
    ".." is met. *)
Fixpoint has_other_entry (es : list dirent) : bool :=
  match es with
  | [] => false
  | (next_file, _) :: es' =>
      if is_this_or_parent next_file then has_other_entry es' else true
  end.

(** opendir on a path that does not resolve fails with ENOENT or ENOTDIR,
    both RESULT_NOTAFILE. *)
Definition DeleteDirectoryIfEmpty (root : node) (cwd path : string)
  : Result_t * option node * list syscall :=
  match os_node root cwd path with
  | None => (RESULT_NOTAFILE, Some root, [])
  | Some n =>
      let result := DirScanner_Open n in
      if negb (KM_SUCCESS result) then (result, Some root, [])
      else
        match n with
        | Dir _ _ es =>
            if has_other_entry es then (RESULT_NOT_EMPTY, Some root, [])
            else DeletePath root cwd path
        | File _ => DeletePath root cwd path
        end
  end.

(** *** CreateDirectoriesInPath *)

(** The tree with the node at [comps] set to [new]. *)
Definition fs_set (root : node) (comps : list string) (new : node) : node :=
  match fs_replace root comps (Some new) with
  | Some root' => root'
  | None => root
  end.

(** mkdir(2): None when the call fails.  The parent of the last component
    must resolve to a directory in which the name is not taken; [refuse]
    stands for the refusals that the tree does not show (permissions, a
    read-only or full file system), by the place of the new directory.  The
    new directory is empty. *)
Definition os_mkdir (refuse : list string -> bool) (root : node)
           (cwd path : string) : option node :=
  if empty path then None
  else
    let comps := PathToComponents path [] default_separator in
    match comps with
    | [] => None
    | _ :: _ =>
        let name := last comps "" in
        match os_walk root
                      (if PathIsAbsolute path default_separator then []
                       else cwd_location cwd)
                      (removelast comps) with
        | None => None
        | Some parent =>
            match fs_lookup root parent with
            | Some (Dir od rd es) =>
                if is_this_or_parent name then None
                else
                  match find_entry name es with
                  | Some _ => None
                  | None =>
                      if refuse (parent ++ [name]) then None
                      else
                        Some (fs_set root parent
                                     (Dir od rd (es ++ [(name, Dir None None [])])))
                  end
            | _ => None
            end
        end
    end.

(** The while loop: [PathComps] are the components left, [TmpPathComps]
    those already seen. *)
Fixpoint CreateDirectories_loop (refuse : list string -> bool) (abs : bool)
         (cwd : string) (PathComps TmpPathComps : list string) (root : node)
  : Result_t * node :=
  match PathComps with
  | [] => (RESULT_OK, root)
  | front :: PathComps' =>
      let TmpPathComps := TmpPathComps ++ [front] in
      let tmp_path :=
        if abs then ComponentsToAbsolutePath TmpPathComps default_separator
        else ComponentsToPath TmpPathComps default_separator in
      if PathIsDirectory_at root cwd tmp_path
      then CreateDirectories_loop refuse abs cwd PathComps' TmpPathComps root
      else
        match os_mkdir refuse root cwd tmp_path with
        | Some root' =>
            CreateDirectories_loop refuse abs cwd PathComps' TmpPathComps root'
        | None => (RESULT_DIR_CREATE, root)
        end
  end.

Definition CreateDirectoriesInPath (refuse : list string -> bool) (root : node)
           (cwd Path : string) : Result_t * node :=
  let abs := PathIsAbsolute Path default_separator in
  let PathComps := PathToComponents Path [] default_separator in
  CreateDirectories_loop refuse abs cwd PathComps [] root.

(** The path that the loop tests for a list of components. *)
Definition tmp_path_of (abs : bool) (comps : list string) : string :=
  if abs then ComponentsToAbsolutePath comps default_separator
  else ComponentsToPath comps default_separator.

(** [grows n n']: [n'] is [n] with entries added, here or below. *)
Inductive grows : node -> node -> Prop :=
| grows_same (n : node) : grows n n
| grows_dir od rd (es es' : list dirent) :
    (forall name c,
        find_entry name es = Some c ->
        exists c', find_entry name es' = Some c' /\ grows c c') ->
    grows (Dir od rd es) (Dir od rd es').

End FS.

(** ** File writer *)

Module Writer.

Open Scope Z_scope.

(** Conversions to the 32-bit types of the source. *)
Definition to_ui32 (z : Z) : Z := z mod 2 ^ 32.
Definition to_int (z : Z) : Z := (z + 2 ^ 31) mod 2 ^ 32 - 2 ^ 31.

Definition IOVecMaxEntries : nat := 32.

(** A buffer is known by its address; 0 is the null pointer. *)
Record iovec : Set := mk_iovec {
  iov_base : Z;
  iov_len : Z
}.

(** m_Count stays between 0 and IOVecMaxEntries and is kept as a nat. *)
Record h__iovec : Set := mk_h__iovec {
  m_Count : nat;
  m_iovec : list iovec
}.

(** h__iovec() : m_Count(0) {} with the 32 slots of the array. *)
Definition h__iovec_new : h__iovec :=
  mk_h__iovec 0 (repeat (mk_iovec 0 0) IOVecMaxEntries).

Definition INVALID_HANDLE_VALUE : Z := -1.

(** m_IOVec is empty until OpenWrite or OpenModify succeeds. *)
Record FileWriter : Set := mk_FileWriter {
  m_Handle : Z;
  m_IOVec : option h__iovec
}.

Definition set_Count (w : FileWriter) (iov : h__iovec) (n : nat) : FileWriter :=
  mk_FileWriter (m_Handle w) (Some (mk_h__iovec n (m_iovec iov))).

(** The length of the pending write list. *)
Definition pending_count (w : FileWriter) : nat :=
  match m_IOVec w with
  | Some iov => m_Count iov
  | None => 0
  end.

(** m_iovec[i] = e *)
Fixpoint array_set (l : list iovec) (i : nat) (e : iovec) : list iovec :=
  match l, i with
  | [], _ => []
  | _ :: l', O => e :: l'
  | x :: l', S i' => x :: array_set l' i' e
  end.

Inductive platform : Set :=
| POSIX
| KM_WIN32.

(** iov_len is a size_t on POSIX and an int in the iovec of the win32
    branch. *)
Definition store_len (p : platform) (buf_len : Z) : Z :=
  match p with
  | POSIX => buf_len
  | KM_WIN32 => to_int buf_len
  end.

(** Writev(const byte_t* buf, ui32_t buf_len): queue a buffer.  None is the
    failed assertion on m_IOVec. *)
Definition Writev_queue (p : platform) (w : FileWriter) (buf : Z) (buf_len : Z)
  : option (Result_t * FileWriter) :=
  match m_IOVec w with
  | None => None
  | Some iov =>
      if buf =? 0 then Some (RESULT_PTR, w)
      else if (IOVecMaxEntries <=? m_Count iov)%nat then Some (RESULT_WRITEFAIL, w)
      else
        Some (RESULT_OK,
              mk_FileWriter (m_Handle w)
                (Some (mk_h__iovec (S (m_Count iov))
                         (array_set (m_iovec iov) (m_Count iov)
                                    (mk_iovec buf (store_len p buf_len))))))
  end.

(** *** POSIX

    [os_writev fd iov] and [os_write fd buf len] are the values the calls
    return (ssize_t). *)

Definition Writev_posix (os_writev : Z -> list iovec -> Z) (w : FileWriter)
  : option (Result_t * FileWriter * option Z) :=
  match m_IOVec w with
  | None => None
  | Some iov =>
      if m_Handle w =? -1 then Some (RESULT_STATE, w, None)
      else
        let total_size :=
          fold_left (fun total e => to_int (total + iov_len e))
                    (firstn (m_Count iov) (m_iovec iov)) 0 in
        let write_size :=
          to_int (os_writev (m_Handle w) (firstn (m_Count iov) (m_iovec iov))) in
        if (write_size =? -1) || negb (write_size =? total_size)
        then Some (RESULT_WRITEFAIL, w, None)
        else Some (RESULT_OK, set_Count w iov 0, Some (to_ui32 write_size))
  end.

Definition Write_posix (os_write : Z -> Z -> Z -> Z) (w : FileWriter)
           (buf : Z) (buf_len : Z) : Result_t * option Z :=
  if buf =? 0 then (RESULT_PTR, None)
  else if m_Handle w =? -1 then (RESULT_STATE, None)
  else
    let write_size := to_int (os_write (m_Handle w) buf buf_len) in
    if (write_size =? -1) || negb (to_ui32 write_size =? buf_len)
    then (RESULT_WRITEFAIL, None)
    else (RESULT_OK, Some (to_ui32 write_size)).

(** *** KM_WIN32

    [os_WriteFile k h buf len] is the answer to the k-th call made during
    the operation: the BOOL returned and the count stored (a DWORD). *)

Fixpoint Writev_win32_loop (os_WriteFile : nat -> Z -> Z -> Z -> bool * Z)
         (h : Z) (i : nat) (pending : list iovec) (bytes_written : Z)
  : Result_t * Z :=
  match pending with
  | [] => (RESULT_OK, bytes_written)
  | e :: rest =>
      let '(wr_result, tmp_count) :=
        os_WriteFile i h (iov_base e) (to_ui32 (iov_len e)) in
      if negb wr_result || negb (tmp_count =? to_ui32 (iov_len e))
      then (RESULT_WRITEFAIL, bytes_written)
      else Writev_win32_loop os_WriteFile h (S i) rest
                             (to_ui32 (bytes_written + tmp_count))
  end.

Definition Writev_win32 (os_WriteFile : nat -> Z -> Z -> Z -> bool * Z)
           (w : FileWriter) : option (Result_t * FileWriter * option Z) :=
  match m_IOVec w with
  | None => None
  | Some iov =>
      if m_Handle w =? INVALID_HANDLE_VALUE then Some (RESULT_STATE, w, None)
      else
        let '(result, bytes_written) :=
          Writev_win32_loop os_WriteFile (m_Handle w) 0
                            (firstn (m_Count iov) (m_iovec iov)) 0 in
        Some (result, set_Count w iov 0, Some bytes_written)
  end.

Definition Write_win32 (os_WriteFile : nat -> Z -> Z -> Z -> bool * Z)
           (w : FileWriter) (buf : Z) (buf_len : Z) : Result_t * option Z :=
  if buf =? 0 then (RESULT_PTR, None)
  else if m_Handle w =? INVALID_HANDLE_VALUE then (RESULT_STATE, None)
  else
    let '(result, bytes_written) := os_WriteFile O (m_Handle w) buf buf_len in
    if negb result || negb (bytes_written =? buf_len)
    then (RESULT_WRITEFAIL, Some bytes_written)
    else (RESULT_OK, Some bytes_written).

(** The reading of the flush under which the pending list is empty
    whenever the call returns, whatever the result. *)
Definition flush_clears_list
           (flush : FileWriter -> option (Result_t * FileWriter * option Z))
           (w : FileWriter) : Prop :=
  pending_count w <> O ->
  forall r w' bytes_written,
    flush w = Some (r, w', bytes_written) -> pending_count w' = O.

(** A writer that was opened, got one buffer of five bytes queued and was
    closed; the same writer still open on descriptor 3. *)
Definition one_pending : h__iovec :=
  mk_h__iovec 1 (array_set (m_iovec h__iovec_new) 0 (mk_iovec 4096 5)).

Definition closed_writer : FileWriter :=
  mk_FileWriter INVALID_HANDLE_VALUE (Some one_pending).

Definition open_writer : FileWriter := mk_FileWriter 3 (Some one_pending).

(** *** Sequences of calls *)

(** Writev(buf, buf_len) for each buffer in turn, as long as the calls
    succeed. *)
Fixpoint Writev_queue_all (p : platform) (w : FileWriter) (bufs : list (Z * Z))
  : option (Result_t * FileWriter) :=
  match bufs with
  | [] => Some (RESULT_OK, w)
  | (buf, buf_len) :: rest =>
      match Writev_queue p w buf buf_len with
      | Some (RESULT_OK, w') => Writev_queue_all p w' rest
      | other => other
      end
  end.

(** The array entries that queueing [bufs] stores. *)
Definition queued (p : platform) (bufs : list (Z * Z)) : list iovec :=
  map (fun b => mk_iovec (fst b) (store_len p (snd b))) bufs.

Definition total_len (bufs : list (Z * Z)) : Z :=
  fold_right (fun b acc => snd b + acc) 0 bufs.

(** A writer just opened on descriptor [h]: m_IOVec = new h__iovec. *)
Definition fresh_writer (h : Z) : FileWriter :=
  mk_FileWriter h (Some h__iovec_new).

(** The writes of the win32 flush that succeed in full, from call [i] on. *)
Fixpoint all_written (os_WriteFile : nat -> Z -> Z -> Z -> bool * Z)
         (h : Z) (i : nat) (pending : list iovec) : Prop :=
  match pending with
  | [] => True
  | e :: rest =>
      os_WriteFile i h (iov_base e) (to_ui32 (iov_len e))
      = (true, to_ui32 (iov_len e))
      /\ all_written os_WriteFile h (S i) rest
  end.

Definition written_len (pending : list iovec) : Z :=
  fold_right (fun e acc => to_ui32 (iov_len e) + acc) 0 pending.

(** The loop of the win32 flush with a record, beside its result, of the
    buffers handed to WriteFile, in order. *)
Fixpoint Writev_win32_loop_traced
         (os_WriteFile : nat -> Z -> Z -> Z -> bool * Z)
         (h : Z) (i : nat) (pending : list iovec) (bytes_written : Z)
  : Result_t * Z * list iovec :=
  match pending with
  | [] => (RESULT_OK, bytes_written, [])
  | e :: rest =>
      let '(wr_result, tmp_count) :=
        os_WriteFile i h (iov_base e) (to_ui32 (iov_len e)) in
      if negb wr_result || negb (tmp_count =? to_ui32 (iov_len e))
      then (RESULT_WRITEFAIL, bytes_written, [e])
      else
        let '(result, bytes, handed) :=
          Writev_win32_loop_traced os_WriteFile h (S i) rest
                                   (to_ui32 (bytes_written + tmp_count)) in
        (result, bytes, e :: handed)
  end.

(** A writer open on descriptor 3 with three buffers queued. *)
Definition three_pending : h__iovec :=
  mk_h__iovec 3
    (array_set
       (array_set (array_set (m_iovec h__iovec_new) 0 (mk_iovec 4096 5))
                  1 (mk_iovec 8192 7))
       2 (mk_iovec 12288 9)).

Definition three_pending_writer : FileWriter := mk_FileWriter 3 (Some three_pending).

End Writer.

(** ** File reader (POSIX branch) *)

Module Reader.

Import Writer.
Open Scope Z_scope.

(** The reader is its handle; -1 is the closed state.  The functions
    return the result, the handle after the call where it changes, and the
    value stored through the pointer argument (None: nothing stored). *)

Definition OpenRead (os_open : string -> Z) (filename : string) : Result_t * Z :=
  let h := os_open filename in
  (if h =? -1 then RESULT_FILEOPEN else RESULT_OK, h).

Definition Close (m_Handle : Z) : Result_t * Z :=
  if m_Handle =? -1 then (RESULT_FILEOPEN, m_Handle)
  else (RESULT_OK, -1).

Definition Seek (os_lseek : Z -> Z -> Z -> Z) (m_Handle : Z)
           (position whence : Z) : Result_t :=
  if m_Handle =? -1 then RESULT_FILEOPEN
  else if os_lseek m_Handle position whence =? -1 then RESULT_BADSEEK
  else RESULT_OK.

(** [pos] is the address of the result, 0 for the null pointer; SEEK_CUR
    is 1. *)
Definition Tell (os_lseek : Z -> Z -> Z -> Z) (m_Handle : Z) (pos : Z)
  : Result_t * option Z :=
  if pos =? 0 then (RESULT_PTR, None)
  else if m_Handle =? -1 then (RESULT_FILEOPEN, None)
  else
    let tmp_pos := os_lseek m_Handle 0 1 in
    if tmp_pos =? -1 then (RESULT_READFAIL, None)
    else (RESULT_OK, Some tmp_pos).

(** *read_count is set to 0 before the handle is looked at; tmp_count is
    an i32_t. *)
Definition Read (os_read : Z -> Z -> Z -> Z) (m_Handle : Z) (buf buf_len : Z)
  : Result_t * option Z :=
  if buf =? 0 then (RESULT_PTR, None)
  else if m_Handle =? -1 then (RESULT_FILEOPEN, Some 0)
  else
    let tmp_count := to_int (os_read m_Handle buf buf_len) in
    if tmp_count =? -1 then (RESULT_READFAIL, Some 0)
    else
      (if tmp_count =? 0 then RESULT_ENDOFFILE else RESULT_OK,
       Some (to_ui32 tmp_count)).

End Reader.

(** ** Path tests on stat *)

Module Stat.

Import Path.
Open Scope Z_scope.

(** The file type values of <sys/stat.h>, the same on Linux, the BSDs,
    macOS and Solaris (octal 010000 to 0140000). *)
Definition S_IFIFO : Z := 4096.
Definition S_IFCHR : Z := 8192.
Definition S_IFDIR : Z := 16384.
Definition S_IFBLK : Z := 24576.
Definition S_IFREG : Z := 32768.
Definition S_IFLNK : Z := 40960.
Definition S_IFSOCK : Z := 49152.

Record fstat_t : Set := mk_fstat {
  st_mode : Z;
  st_size : Z
}.

(** [info] is what stat stored, None when it returned -1.  The test on the
    path is KM_TEST_NULL_STR_L, on the C string. *)
Definition do_stat (path : string) (info : option fstat_t) : Result_t :=
  if empty (c_str path) then RESULT_NULL_STR
  else
    match info with
    | None => RESULT_FILEOPEN
    | Some i =>
        if Z.land (st_mode i) (Z.lor (Z.lor S_IFREG S_IFLNK) S_IFDIR) =? 0
        then RESULT_FILEOPEN
        else RESULT_OK
    end.

Definition mode_of (info : option fstat_t) : Z :=
  match info with
  | Some i => st_mode i
  | None => 0
  end.

Definition PathExists (pathname : string) (info : option fstat_t) : bool :=
  if empty pathname then false
  else KM_SUCCESS (do_stat pathname info).

Definition PathIsFile (pathname : string) (info : option fstat_t) : bool :=
  if empty pathname then false
  else if KM_SUCCESS (do_stat pathname info)
       then negb (Z.land (mode_of info) (Z.lor S_IFREG S_IFLNK) =? 0)
       else false.

Definition PathIsDirectory (pathname : string) (info : option fstat_t) : bool :=
  if empty pathname then false
  else if KM_SUCCESS (do_stat pathname info)
       then negb (Z.land (mode_of info) S_IFDIR =? 0)
       else false.

Definition FileSize (pathname : string) (info : option fstat_t) : Z :=
  if empty pathname then 0
  else if KM_SUCCESS (do_stat pathname info)
       then if negb (Z.land (mode_of info) (Z.lor S_IFREG S_IFLNK) =? 0)
            then match info with
                 | Some i => st_size i
                 | None => 0
                 end
            else 0
       else 0.

(** The seven file types of st_mode. *)
Inductive file_type : Set :=
| FT_FIFO | FT_CHR | FT_DIR | FT_BLK | FT_REG | FT_LNK | FT_SOCK.

Definition type_bits (t : file_type) : Z :=
  match t with
  | FT_FIFO => S_IFIFO
  | FT_CHR => S_IFCHR
  | FT_DIR => S_IFDIR
  | FT_BLK => S_IFBLK
  | FT_REG => S_IFREG
  | FT_LNK => S_IFLNK
  | FT_SOCK => S_IFSOCK
  end.

(** The answers of the three tests for each file type. *)
Definition exists_for (t : file_type) : bool :=
  match t with
  | FT_FIFO => false
  | _ => true
  end.

Definition is_file_for (t : file_type) : bool :=
  match t with
  | FT_REG | FT_LNK | FT_CHR | FT_BLK | FT_SOCK => true
  | FT_FIFO | FT_DIR => false
  end.

Definition is_directory_for (t : file_type) : bool :=
  match t with
  | FT_DIR | FT_BLK | FT_SOCK => true
  | FT_FIFO | FT_CHR | FT_REG | FT_LNK => false
  end.

(** The three mask tests on a mode, against the table of answers. *)
Definition mask_tests_agree (t : file_type) (perm : Z) : bool :=
  let m := type_bits t + perm in
  Bool.eqb (negb (Z.land m (Z.lor (Z.lor S_IFREG S_IFLNK) S_IFDIR) =? 0))
           (exists_for t)
  && Bool.eqb (negb (Z.land m (Z.lor (Z.lor S_IFREG S_IFLNK) S_IFDIR) =? 0)
               && negb (Z.land m (Z.lor S_IFREG S_IFLNK) =? 0))
              (is_file_for t)
  && Bool.eqb (negb (Z.land m (Z.lor (Z.lor S_IFREG S_IFLNK) S_IFDIR) =? 0)
               && negb (Z.land m S_IFDIR =? 0))
              (is_directory_for t).

End Stat.

(** * Properties *)

(** ** Path algebra *)

Module PathFacts.

Import Path.

Section Strings.

Variable sep : ascii.

Lemma append_nil_r (s : string) : (s ++ "")%string = s.
Proof. induction s as [|c s IH]; simpl; [reflexivity | now rewrite IH]. Qed.

Lemma append_assoc (a b c : string) :
  ((a ++ b) ++ c)%string = (a ++ (b ++ c))%string.
Proof. induction a as [|x a IH]; simpl; [reflexivity | now rewrite IH]. Qed.

Lemma contains_append (a b : string) (c : ascii) :
  contains (a ++ b)%string c = contains a c || contains b c.
Proof.
  induction a as [|x a IH]; simpl; [reflexivity|].
  now rewrite IH, orb_assoc.
Qed.

Lemma fold_append_component (l : list string) (a b : string) :
  fold_left (append_component sep) l (a ++ b)%string
  = (a ++ fold_left (append_component sep) l b)%string.
Proof.
  revert b. induction l as [|x l IH]; intros b; simpl; [reflexivity|].
  unfold append_component at 2 4. now rewrite append_assoc, IH.
Qed.

Lemma tail_path_cons (c : string) (l : list string) :
  tail_path sep (c :: l) = String sep (c ++ tail_path sep l)%string.
Proof.
  unfold tail_path; simpl fold_left.
  change (append_component sep "" c) with (String sep c).
  rewrite <- (append_nil_r (String sep c)).
  rewrite fold_append_component. reflexivity.
Qed.

Lemma ComponentsToPath_cons (c : string) (l : list string) :
  ComponentsToPath (c :: l) sep = (c ++ tail_path sep l)%string.
Proof.
  unfold ComponentsToPath, tail_path.
  rewrite <- (append_nil_r c) at 1. apply fold_append_component.
Qed.

Lemma ComponentsToAbsolutePath_cons (c : string) (l : list string) :
  ComponentsToAbsolutePath (c :: l) sep = tail_path sep (c :: l).
Proof. reflexivity. Qed.

(** *** The tokens of a split *)

Lemma km_token_split_not_nil (s : string) : km_token_split s sep <> [].
Proof.
  induction s as [|c s IH]; simpl; [discriminate|].
  destruct (Ascii.eqb c sep); [discriminate|].
  destruct (km_token_split s sep); discriminate.
Qed.

Lemma km_token_split_free (tok : string) :
  contains tok sep = false -> km_token_split tok sep = [tok].
Proof.
  induction tok as [|c tok IH]; simpl; [reflexivity|].
  intros H. apply orb_false_iff in H as [Hc Ht].
  rewrite Hc, (IH Ht). reflexivity.
Qed.

Lemma km_token_split_at_sep (tok rest : string) :
  contains tok sep = false ->
  km_token_split (tok ++ String sep rest)%string sep
  = tok :: km_token_split rest sep.
Proof.
  induction tok as [|c tok IH]; simpl.
  - intros _. now rewrite Ascii.eqb_refl.
  - intros H. apply orb_false_iff in H as [Hc Ht].
    rewrite Hc, (IH Ht). reflexivity.
Qed.

Lemma km_token_split_tokens_free (s : string) :
  Forall (fun t => contains t sep = false) (km_token_split s sep).
Proof.
  induction s as [|c s IH]; simpl.
  - constructor; [reflexivity | constructor].
  - destruct (Ascii.eqb c sep) eqn:Hc.
    + constructor; [reflexivity | exact IH].
    + destruct (km_token_split s sep) as [|t ts].
      * constructor; [simpl; now rewrite Hc | constructor].
      * inversion IH; subst. constructor; [simpl; now rewrite Hc | assumption].
Qed.

Lemma PathToComponents_components (p : string) :
  Forall (component sep) (PathToComponents p [] sep).
Proof.
  unfold PathToComponents; simpl.
  pose proof (km_token_split_tokens_free p) as H.
  induction H as [|t ts Ht _ IH]; simpl; [constructor|].
  destruct (empty t) eqn:He; simpl; [exact IH|].
  constructor; [split; assumption | exact IH].
Qed.

(** *** Splitting what a join produced *)

Lemma split_component_tail (l : list string) :
  Forall (component sep) l ->
  forall c, contains c sep = false ->
  filter (fun i => negb (empty i)) (km_token_split (c ++ tail_path sep l)%string sep)
  = keep_nonempty c ++ l.
Proof.
  induction 1 as [|d l [Hd1 Hd2] _ IH]; intros c Hc.
  - unfold tail_path; simpl. rewrite append_nil_r, (km_token_split_free _ Hc).
    unfold keep_nonempty; simpl. destruct (empty c); reflexivity.
  - rewrite tail_path_cons, (km_token_split_at_sep _ _ Hc).
    simpl filter. rewrite (IH d Hd2).
    unfold keep_nonempty. rewrite Hd1. destruct (empty c); reflexivity.
Qed.

Lemma split_ComponentsToPath (l : list string) :
  Forall (component sep) l ->
  PathToComponents (ComponentsToPath l sep) [] sep = l.
Proof.
  intros H. destruct H as [|c l [Hc1 Hc2] Hl]; [reflexivity|].
  rewrite ComponentsToPath_cons. unfold PathToComponents; simpl app.
  rewrite (split_component_tail l Hl c Hc2).
  unfold keep_nonempty. now rewrite Hc1.
Qed.

Lemma split_ComponentsToAbsolutePath (l : list string) :
  Forall (component sep) l ->
  PathToComponents (ComponentsToAbsolutePath l sep) [] sep = l.
Proof.
  intros H. destruct l as [|c l].
  - unfold PathToComponents; simpl. now rewrite Ascii.eqb_refl.
  - rewrite ComponentsToAbsolutePath_cons. unfold PathToComponents; simpl app.
    apply (split_component_tail (c :: l) H ""). reflexivity.
Qed.

Lemma ComponentsToAbsolutePath_absolute (l : list string) :
  PathIsAbsolute (ComponentsToAbsolutePath l sep) sep = true.
Proof.
  destruct l as [|c l].
  - simpl. apply Ascii.eqb_refl.
  - rewrite ComponentsToAbsolutePath_cons, tail_path_cons. simpl.
    apply Ascii.eqb_refl.
Qed.

Lemma ComponentsToPath_relative (l : list string) :
  Forall (component sep) l ->
  PathIsAbsolute (ComponentsToPath l sep) sep = false.
Proof.
  intros H. destruct H as [|c l [Hc1 Hc2] _]; [reflexivity|].
  rewrite ComponentsToPath_cons.
  destruct c as [|x c]; [discriminate|]. simpl in *.
  now apply orb_false_iff in Hc2 as [Hx _].
Qed.

(** *** The canonical list *)

Lemma Forall_removelast {A} (P : A -> Prop) (l : list A) :
  Forall P l -> Forall P (removelast l).
Proof.
  induction 1 as [|x l Hx Hl IH]; simpl; [constructor|].
  destruct l; [constructor | constructor; assumption].
Qed.

Lemma make_canonical_list_plain (in_list : list string) :
  Forall (component sep) in_list ->
  forall out_list, Forall (plain sep) out_list ->
  Forall (plain sep) (make_canonical_list in_list out_list).
Proof.
  induction 1 as [|i rest Hi _ IH]; intros out Hout; simpl; [assumption|].
  destruct (String.eqb i "..") eqn:E2.
  - apply IH. destruct out; [assumption|].
    unfold pop_back. now apply Forall_removelast.
  - destruct (String.eqb i ".") eqn:E1; simpl.
    + now apply IH.
    + apply IH. apply Forall_app; split; [assumption|].
      constructor; [|constructor].
      apply String.eqb_neq in E1, E2. repeat split; try apply Hi; assumption.
Qed.

Lemma make_canonical_list_of_plain (l : list string) :
  Forall (plain sep) l ->
  forall out_list, make_canonical_list l out_list = out_list ++ l.
Proof.
  induction 1 as [|i rest (_ & H1 & H2) _ IH]; intros out; simpl.
  - now rewrite app_nil_r.
  - apply String.eqb_neq in H1, H2. rewrite H2, H1; simpl.
    rewrite IH, <- app_assoc. reflexivity.
Qed.

Lemma plain_component (l : list string) :
  Forall (plain sep) l -> Forall (component sep) l.
Proof. apply Forall_impl. intros a H; apply H. Qed.

End Strings.


(** *** Round trip, canonical form, extension *)

(** C7: splitting the relative join of a non-empty sequence of non-empty,
    separator-free components gives the sequence back. *)
Theorem PathToComponents_ComponentsToPath (C : PathCompList_t) (sep : ascii) :
  C <> [] ->
  Forall (component sep) C ->
  PathToComponents (ComponentsToPath C sep) [] sep = C.
Proof. intros _ H. now apply split_ComponentsToPath. Qed.

Lemma PathToComponents_ComponentsToPath_witness :
  PathToComponents (ComponentsToPath ["usr"; "local"; "lib"] "/") [] "/"
  = ["usr"; "local"; "lib"].
Proof.
  apply (PathToComponents_ComponentsToPath ["usr"; "local"; "lib"] "/"%char).
  - discriminate.
  - repeat constructor.
Defined.

(** C5: PathMakeCanonical is idempotent, for every path and separator. *)
Theorem PathMakeCanonical_idempotent (p : string) (sep : ascii) :
  PathMakeCanonical (PathMakeCanonical p sep) sep = PathMakeCanonical p sep.
Proof.
  set (out_list := make_canonical_list (PathToComponents p [] sep) []).
  assert (Hplain : Forall (plain sep) out_list).
  { apply make_canonical_list_plain;
      [apply PathToComponents_components | constructor]. }
  pose proof (plain_component sep out_list Hplain) as Hcomp.
  assert (E : PathMakeCanonical p sep
              = if PathIsAbsolute p sep
                then ComponentsToAbsolutePath out_list sep
                else ComponentsToPath out_list sep) by reflexivity.
  rewrite E. clear E.
  destruct (PathIsAbsolute p sep); unfold PathMakeCanonical.
  - rewrite ComponentsToAbsolutePath_absolute,
      (split_ComponentsToAbsolutePath sep out_list Hcomp),
      (make_canonical_list_of_plain sep out_list Hplain).
    reflexivity.
  - rewrite (ComponentsToPath_relative sep out_list Hcomp),
      (split_ComponentsToPath sep out_list Hcomp),
      (make_canonical_list_of_plain sep out_list Hplain).
    reflexivity.
Qed.

Lemma make_canonical_list_dotdots (n : nat) :
  make_canonical_list (repeat ".." n) [] = [].
Proof. induction n as [|n IH]; simpl; [reflexivity | exact IH]. Qed.

Lemma removelast_snoc {A} (l : list A) (x : A) : removelast (l ++ [x]) = l.
Proof.
  induction l as [|y l IH]; simpl; [reflexivity|].
  rewrite IH. destruct l; reflexivity.
Qed.

(** C6: a ".." pops the previous output component when there is one and is
    dropped otherwise; "/a/../../b" canonicalizes to "/b"; a relative path
    made only of ".." components canonicalizes to the empty path. *)
Theorem dotdot_never_escapes_root :
  (forall rest out x,
      make_canonical_list (".." :: rest) (out ++ [x])
      = make_canonical_list rest out)
  /\ (forall rest,
         make_canonical_list (".." :: rest) [] = make_canonical_list rest [])
  /\ PathMakeCanonical "/a/../../b" "/" = "/b"
  /\ (forall (n : nat) (sep : ascii),
         sep <> "."%char ->
         PathMakeCanonical (ComponentsToPath (repeat ".." n) sep) sep = "").
Proof.
  split; [|split; [|split]].
  - intros rest out x. simpl.
    destruct (out ++ [x]) eqn:E.
    + now destruct out.
    + rewrite <- E. unfold pop_back. now rewrite removelast_snoc.
  - reflexivity.
  - reflexivity.
  - intros n sep Hsep.
    assert (Hc : Forall (component sep) (repeat ".." n)).
    { apply Forall_forall. intros x Hx. apply repeat_spec in Hx; subst x.
      assert (E : Ascii.eqb "." sep = false).
      { apply Ascii.eqb_neq. congruence. }
      split; [reflexivity|].
      change (Ascii.eqb "." sep || (Ascii.eqb "." sep || false) = false).
      now rewrite E. }
    unfold PathMakeCanonical.
    rewrite (ComponentsToPath_relative sep _ Hc), (split_ComponentsToPath sep _ Hc).
    now rewrite make_canonical_list_dotdots.
Qed.

Lemma dotdot_never_escapes_root_witness :
  PathMakeCanonical (ComponentsToPath (repeat ".." 3) "/") "/" = "".
Proof.
  apply (proj2 (proj2 (proj2 dotdot_never_escapes_root)) 3 "/"%char).
  discriminate.
Defined.

Lemma last_snoc {A} (l : list A) (x d : A) : last (l ++ [x]) d = x.
Proof.
  induction l as [|y l IH]; simpl; [reflexivity|].
  rewrite IH. destruct l; reflexivity.
Qed.

Lemma PathBasename_last (Path : string) (dirs : list string) (final : string) :
  PathToComponents Path [] default_separator = dirs ++ [final] ->
  PathBasename Path default_separator = final.
Proof.
  intros H. unfold PathBasename. rewrite H.
  destruct (dirs ++ [final]) eqn:E; [now destruct dirs|].
  rewrite <- E. apply last_snoc.
Qed.

Lemma PathBasename_component (c : string) :
  component default_separator c -> PathBasename c default_separator = c.
Proof.
  intros Hc.
  apply (PathBasename_last c []).
  change c with (ComponentsToPath [c] default_separator) at 1.
  apply split_ComponentsToPath. repeat constructor; apply Hc.
Qed.

Lemma contains_substring (s : string) (c : ascii) :
  contains s c = false ->
  forall n m, contains (substring n m s) c = false.
Proof.
  induction s as [|x s IH]; intros H n m.
  - destruct n, m; reflexivity.
  - simpl in H. apply orb_false_iff in H as [Hx Hs].
    destruct n as [|n]; simpl.
    + destruct m as [|m]; simpl; [reflexivity|]. now rewrite Hx, IH.
    + now apply IH.
Qed.

Lemma strrchr_no_occurrence (s : string) (c : ascii) :
  contains s c = false -> strrchr s c = None.
Proof.
  induction s as [|x s IH]; simpl; [reflexivity|].
  intros H. apply orb_false_iff in H as [Hx Hs]. now rewrite IH, Hx.
Qed.

Lemma strrchr_last_occurrence (a e : string) (c : ascii) :
  contains e c = false ->
  strrchr (a ++ String c e)%string c = Some (String.length a).
Proof.
  intros He. induction a as [|x a IH]; simpl.
  - now rewrite (strrchr_no_occurrence e c He), Ascii.eqb_refl.
  - now rewrite IH.
Qed.

(** The C string of [s] is a prefix of [s]. *)
Lemma substring_c_str_prefix (s : string) :
  forall a b,
    c_str s = (a ++ b)%string -> substring 0 (String.length a) s = a.
Proof.
  induction s as [|x s IH]; intros a b H.
  - destruct a; [reflexivity | discriminate].
  - destruct a as [|y a]; [reflexivity|].
    cbn [c_str] in H. destruct (Ascii.eqb x zero); [discriminate|].
    cbn [append] in H. injection H as -> H.
    cbn [String.length substring]. now rewrite (IH a b H).
Qed.

(** C10: for a path of more than one component, PathSetExtension gives what
    it gives for the final component alone, and the result contains no
    separator when the extension has none: the directory part is gone.
    What it gives is the final component with its extension replaced: the
    final component up to the last dot of its C string (all of it when
    there is no dot), followed by a dot and the new extension when that one
    is not empty. *)
Theorem PathSetExtension_drops_directory
        (Path Extension : string) (dirs : list string) (final : string) :
  PathToComponents Path [] default_separator = dirs ++ [final] ->
  dirs <> [] ->
  PathSetExtension Path Extension = PathSetExtension final Extension
  /\ (contains Extension default_separator = false ->
      contains (PathSetExtension Path Extension) default_separator = false)
  /\ (contains (c_str final) "." = false ->
      PathSetExtension Path Extension
      = if empty Extension then final else (final ++ "." ++ Extension)%string)
  /\ (forall stem old,
         c_str final = (stem ++ "." ++ old)%string ->
         contains old "." = false ->
         PathSetExtension Path Extension
         = if empty Extension then stem else (stem ++ "." ++ Extension)%string).
Proof.
  intros Hsplit _.
  assert (Hfinal : component default_separator final).
  { pose proof (PathToComponents_components default_separator Path) as H.
    rewrite Hsplit in H. apply Forall_app in H as [_ H]. now inversion H. }
  pose proof (PathBasename_last Path dirs final Hsplit) as Hb.
  split; [|split; [|split]].
  - unfold PathSetExtension.
    now rewrite Hb, (PathBasename_component final Hfinal).
  - intros Hext. unfold PathSetExtension. rewrite Hb.
    destruct Hfinal as [_ Hfree].
    assert (Hstem : contains
                      match strrchr (c_str final) "." with
                      | Some k => substring 0 k final
                      | None => final
                      end default_separator = false).
    { destruct (strrchr (c_str final) "."); [|assumption].
      now apply contains_substring. }
    destruct (empty Extension); [assumption|].
    rewrite !contains_append, Hstem, Hext. reflexivity.
  - intros Hdot. unfold PathSetExtension.
    now rewrite Hb, (strrchr_no_occurrence _ _ Hdot).
  - intros stem old Hcut Hold. unfold PathSetExtension. rewrite Hb.
    change (stem ++ "." ++ old)%string with (stem ++ String "." old)%string in Hcut.
    rewrite Hcut, (strrchr_last_occurrence stem old "." Hold).
    now rewrite (substring_c_str_prefix final stem (String "." old) Hcut).
Qed.

Lemma PathSetExtension_drops_directory_witness :
  PathSetExtension "/home/user/report.txt" "bak" = "report.bak".
Proof.
  refine (proj2 (proj2 (proj2
            (PathSetExtension_drops_directory
               "/home/user/report.txt" "bak" ["home"; "user"] "report.txt"
               _ _))) "report" "txt" _ _).
  - reflexivity.
  - discriminate.
  - reflexivity.
  - reflexivity.
Defined.

(** The other cases at concrete paths: no dot in the final component, an
    empty extension, several dots. *)
Example PathSetExtension_examples :
  PathSetExtension "/home/user/notes" "txt" = "notes.txt"
  /\ PathSetExtension "/home/user/report.txt" "" = "report"
  /\ PathSetExtension "/srv/a.b/archive.tar.gz" "xz" = "archive.tar.xz".
Proof. repeat split; reflexivity. Qed.

End PathFacts.

(** ** Pattern matcher *)

Module GlobFacts.

Import Path Glob.

Lemma glob_to_regex_app (a b : string) :
  glob_to_regex (a ++ b)%string = (glob_to_regex a ++ glob_to_regex b)%string.
Proof.
  induction a as [|c a IH]; simpl; [reflexivity|].
  rewrite IH. symmetry. apply PathFacts.append_assoc.
Qed.

(** Every question mark of the glob becomes the two characters ".?". *)
Lemma glob_to_regex_question_mark (a b : string) :
  glob_to_regex (a ++ String "?" b)%string
  = (glob_to_regex a ++ ".?" ++ glob_to_regex b)%string.
Proof. now rewrite glob_to_regex_app. Qed.

(** C4: the glob "a?c" at the names "abc", "ab?c" and "ac".  The constructor
    emits "a.?c$" and compiles it with REG_NOSUB alone, the basic syntax, in
    which the question mark is an ordinary character: the name "abc", with
    one character in the position, does not match, and "ab?c" does.  Under
    REG_EXTENDED the same text makes the position optional and "ac"
    matches. *)
Theorem PathMatchGlob_question_mark :
  (glob_to_regex "a?c" ++ "$")%string = "a.?c$"
  /\ Match (PathMatchGlob_new "a?c") "abc" = false
  /\ Match (PathMatchGlob_new "a?c") "ab?c" = true
  /\ Match (PathMatchGlob_new "a?c") "ac" = false
  /\ Match (PathMatchGlob_new_with REG_EXTENDED "a?c") "abc" = true
  /\ Match (PathMatchGlob_new_with REG_EXTENDED "a?c") "ac" = true.
Proof. repeat split; reflexivity. Qed.

(** The scenario of the specification: "*.txt" matches "report.txt" and not
    "report.txt.bak". *)
Example glob_txt :
  Match (PathMatchGlob_new "*.txt") "report.txt" = true
  /\ Match (PathMatchGlob_new "*.txt") "report.txt.bak" = false.
Proof. split; reflexivity. Qed.

End GlobFacts.

(** ** Recursive directory operations *)

Module FSFacts.

Import Path Glob FS.

(** Induction on a tree, with the hypothesis for every entry of a
    directory. *)
Lemma node_tree_ind (P : node -> Prop) :
  (forall e, P (File e)) ->
  (forall od rd es, Forall (fun e => P (snd e)) es -> P (Dir od rd es)) ->
  forall n, P n.
Proof.
  intros HF HD. fix IH 1. intros [e | od rd es].
  - apply HF.
  - apply HD. induction es as [|e es IHes]; constructor.
    + apply IH.
    + exact IHes.
Qed.

Lemma empty_entry_path (pathname next_file : string) :
  empty (pathname ++ "/" ++ next_file)%string = false.
Proof. destruct pathname; reflexivity. Qed.

(** *** The loop of h__DeletePath *)

Section Scan.

Variable rec : string -> node -> Result_t * option node * list syscall.
Variable pathname : string.

Lemma DeletePath_scan_cons (next_file : string) (c : node) (es' : list dirent)
      (result : Result_t) :
  DeletePath_scan rec pathname ((next_file, c) :: es') result
  = if negb (KM_SUCCESS result) then (result, (next_file, c) :: es', [])
    else if is_this_or_parent next_file then
      let '(r, rest, calls) := DeletePath_scan rec pathname es' result in
      (r, (next_file, c) :: rest, calls)
    else
      let '(r1, c', calls1) := rec (pathname ++ "/" ++ next_file)%string c in
      let '(r, rest, calls) := DeletePath_scan rec pathname es' r1 in
      (r,
       match c' with
       | Some c'' => (next_file, c'') :: rest
       | None => rest
       end,
       calls1 ++ calls).
Proof. reflexivity. Qed.

Lemma DeletePath_scan_failed (es : list dirent) (result : Result_t) :
  KM_SUCCESS result = false ->
  DeletePath_scan rec pathname es result = (result, es, []).
Proof.
  intros H. destruct es as [|[n c] es]; [reflexivity|].
  rewrite DeletePath_scan_cons, H. reflexivity.
Qed.

(** The loop over [pre ++ rest]: the loop over [pre], then, when that ended
    in success, the loop over [rest]. *)
Lemma DeletePath_scan_app (pre rest : list dirent) (result : Result_t) :
  DeletePath_scan rec pathname (pre ++ rest) result
  = let '(r, pre', calls) := DeletePath_scan rec pathname pre result in
    if KM_SUCCESS r then
      let '(r2, rest', calls2) := DeletePath_scan rec pathname rest r in
      (r2, pre' ++ rest', calls ++ calls2)
    else (r, pre' ++ rest, calls).
Proof.
  revert result. induction pre as [|[n c] pre IH]; intros result.
  - change (DeletePath_scan rec pathname [] result) with (result, @nil dirent, @nil syscall).
    cbv iota beta. rewrite !app_nil_l.
    destruct (KM_SUCCESS result) eqn:E.
    + now destruct (DeletePath_scan rec pathname rest result) as [[r2 rest'] calls2].
    + now rewrite DeletePath_scan_failed.
  - rewrite <- app_comm_cons, !DeletePath_scan_cons.
    destruct (KM_SUCCESS result) eqn:E; cbn [negb].
    + destruct (is_this_or_parent n).
      * rewrite IH.
        destruct (DeletePath_scan rec pathname pre result) as [[r pre'] calls].
        destruct (KM_SUCCESS r); [|reflexivity].
        now destruct (DeletePath_scan rec pathname rest r) as [[r2 rest'] calls2].
      * destruct (rec (pathname ++ "/" ++ n)%string c) as [[r1 c'] calls1].
        rewrite IH.
        destruct (DeletePath_scan rec pathname pre r1) as [[r pre'] calls].
        destruct (KM_SUCCESS r).
        -- destruct (DeletePath_scan rec pathname rest r) as [[r2 rest'] calls2].
           rewrite <- app_assoc. now destruct c'.
        -- now destruct c'.
    + rewrite E. reflexivity.
Qed.

(** The loop stops at the first entry whose deletion fails: the entries
    after it are left as they were and no call is issued for them. *)
Lemma DeletePath_scan_first_failure
      (pre post pre' : list dirent) (calls_pre calls_c : list syscall)
      (name : string) (c : node) (r : Result_t) (c' : option node) :
  DeletePath_scan rec pathname pre RESULT_OK = (RESULT_OK, pre', calls_pre) ->
  is_this_or_parent name = false ->
  rec (pathname ++ "/" ++ name)%string c = (r, c', calls_c) ->
  KM_SUCCESS r = false ->
  DeletePath_scan rec pathname (pre ++ (name, c) :: post) RESULT_OK
  = (r,
     pre' ++ match c' with
             | Some x => (name, x) :: post
             | None => post
             end,
     calls_pre ++ calls_c).
Proof.
  intros Hpre Hname Hc Hr.
  rewrite DeletePath_scan_app, Hpre. cbn [KM_SUCCESS].
  rewrite DeletePath_scan_cons. cbn [KM_SUCCESS negb].
  rewrite Hname, Hc, (DeletePath_scan_failed post r Hr), app_nil_r.
  reflexivity.
Qed.

End Scan.

(** *** h__DeletePath *)

Lemma h__DeletePath_empty (n : node) :
  h__DeletePath "" n = (RESULT_NULL_STR, Some n, []).
Proof. destruct n; reflexivity. Qed.

Lemma h__DeletePath_Dir (pathname : string) od rd (entries : list dirent) :
  empty pathname = false ->
  h__DeletePath pathname (Dir od rd entries)
  = let '(result, entries', calls) :=
      DeletePath_scan h__DeletePath pathname entries
                      (DirScanner_Open (Dir od rd entries)) in
    match os_rmdir rd entries' with
    | None => (result, None, calls ++ [sys_rmdir pathname])
    | Some e =>
        (rmdir_result e, Some (Dir od rd entries'), calls ++ [sys_rmdir pathname])
    end.
Proof. intros H. cbn [h__DeletePath]. rewrite H. reflexivity. Qed.

Lemma h__DeletePath_File (pathname : string) e :
  empty pathname = false ->
  h__DeletePath pathname (File e) = DeleteFile pathname (File e).
Proof. intros H. cbn [h__DeletePath]. rewrite H. reflexivity. Qed.

(** What h__DeletePath does on a directory it can open when the deletion of
    the entry [name] is the first to fail. *)
Lemma h__DeletePath_first_failure
      (pathname : string) rd (pre post pre' : list dirent)
      (calls_pre calls_c : list syscall)
      (name : string) (c : node) (r : Result_t) (c' : option node) :
  empty pathname = false ->
  DeletePath_scan h__DeletePath pathname pre RESULT_OK
  = (RESULT_OK, pre', calls_pre) ->
  is_this_or_parent name = false ->
  h__DeletePath (pathname ++ "/" ++ name)%string c = (r, c', calls_c) ->
  KM_SUCCESS r = false ->
  h__DeletePath pathname (Dir None rd (pre ++ (name, c) :: post))
  = let entries' := pre' ++ match c' with
                            | Some x => (name, x) :: post
                            | None => post
                            end in
    (match os_rmdir rd entries' with
     | None => r
     | Some e => rmdir_result e
     end,
     match os_rmdir rd entries' with
     | None => None
     | Some _ => Some (Dir None rd entries')
     end,
     (calls_pre ++ calls_c) ++ [sys_rmdir pathname]).
Proof.
  intros Hp Hpre Hname Hc Hr.
  rewrite (h__DeletePath_Dir _ _ _ _ Hp).
  change (DirScanner_Open (Dir None rd (pre ++ (name, c) :: post))) with RESULT_OK.
  rewrite (DeletePath_scan_first_failure _ _ _ _ _ _ _ _ _ _ _ Hpre Hname Hc Hr).
  cbv zeta. now destruct (os_rmdir rd _).
Qed.

Lemma os_rmdir_not_empty rd (pre post : list dirent) (name : string) (x : node) :
  is_this_or_parent name = false ->
  exists e, os_rmdir rd (pre ++ (name, x) :: post) = Some e.
Proof.
  intros Hname. unfold os_rmdir. destruct rd as [e|]; [now exists e|].
  rewrite existsb_app. cbn [existsb fst]. rewrite Hname. cbn [negb orb].
  rewrite orb_true_r. now exists ENOTEMPTY.
Qed.

(** h__DeletePath on a non-empty path never answers with the empty-string
    error. *)
Lemma DeletePath_scan_result (P : Result_t -> Prop)
      (rec : string -> node -> Result_t * option node * list syscall)
      (pathname : string) (es : list dirent) :
  Forall (fun e => forall p, empty p = false -> P (fst (fst (rec p (snd e))))) es ->
  forall result, P result ->
  P (fst (fst (DeletePath_scan rec pathname es result))).
Proof.
  induction 1 as [|[n c] es Hc _ IH]; intros result Hres; [exact Hres|].
  rewrite DeletePath_scan_cons.
  destruct (KM_SUCCESS result); cbn [negb]; [|exact Hres].
  destruct (is_this_or_parent n).
  - specialize (IH result Hres).
    now destruct (DeletePath_scan rec pathname es result) as [[r rest] calls].
  - specialize (Hc (pathname ++ "/" ++ n)%string (empty_entry_path _ _)).
    cbn [snd] in Hc.
    destruct (rec (pathname ++ "/" ++ n)%string c) as [[r1 c'] calls1].
    specialize (IH r1 Hc).
    now destruct (DeletePath_scan rec pathname es r1) as [[r rest] calls].
Qed.

Lemma h__DeletePath_not_NULL_STR (n : node) :
  forall p, empty p = false ->
  fst (fst (h__DeletePath p n)) <> RESULT_NULL_STR.
Proof.
  induction n as [e | od rd es IH] using node_tree_ind; intros p Hp.
  - rewrite (h__DeletePath_File _ _ Hp). unfold DeleteFile.
    destruct (os_unlink (File e)) as [[]|]; discriminate.
  - rewrite (h__DeletePath_Dir _ _ _ _ Hp).
    pose proof (DeletePath_scan_result (fun r => r <> RESULT_NULL_STR)
                  h__DeletePath p es IH (DirScanner_Open (Dir od rd es))) as H.
    destruct (DeletePath_scan h__DeletePath p es (DirScanner_Open (Dir od rd es)))
      as [[r es'] calls].
    destruct (os_rmdir rd es') as [e|].
    + destruct e; discriminate.
    + apply H. destruct od as [[]|]; discriminate.
Qed.

(** *** The path DeletePath works on *)

Lemma absolute_not_empty (p : string) (sep : ascii) :
  PathIsAbsolute p sep = true -> empty p = false.
Proof. now destruct p. Qed.

Lemma PathMakeCanonical_absolute (p : string) (sep : ascii) :
  PathIsAbsolute p sep = true ->
  PathIsAbsolute (PathMakeCanonical p sep) sep = true.
Proof.
  intros H. unfold PathMakeCanonical. rewrite H.
  apply PathFacts.ComponentsToAbsolutePath_absolute.
Qed.

Lemma PathMakeAbsolute_absolute (cwd p : string) :
  PathIsAbsolute (PathMakeAbsolute cwd p default_separator) default_separator = true.
Proof.
  unfold PathMakeAbsolute. destruct (empty p); [reflexivity|].
  destruct (PathIsAbsolute p default_separator) eqn:E.
  - now apply PathMakeCanonical_absolute.
  - apply PathFacts.ComponentsToAbsolutePath_absolute.
Qed.

Lemma c_pathname_not_empty (cwd pathname : string) :
  empty (c_pathname_of cwd pathname) = false.
Proof.
  apply (absolute_not_empty _ default_separator).
  apply PathMakeCanonical_absolute, PathMakeAbsolute_absolute.
Qed.

(** *** DeletePath *)

(** What the code does when the deletion of an entry is the first to fail:
    the entries after it are left untouched and no call is issued for them
    (the loop stops on the failure held in result); rmdir is then called on
    the directory all the same, and when it fails, as it does whenever the
    failing child is still there, its switch on errno overwrites result. *)
Theorem DeletePath_first_failure
        (root : node) (cwd pathname : string) rd (pre post pre' : list dirent)
        (calls_pre calls_c : list syscall)
        (name : string) (c : node) (r : Result_t) (c' : option node) :
  let c_pathname := c_pathname_of cwd pathname in
  let comps := PathToComponents c_pathname [] default_separator in
  fs_lookup root comps = Some (Dir None rd (pre ++ (name, c) :: post)) ->
  DeletePath_scan h__DeletePath c_pathname pre RESULT_OK
  = (RESULT_OK, pre', calls_pre) ->
  is_this_or_parent name = false ->
  h__DeletePath (c_pathname ++ "/" ++ name)%string c = (r, c', calls_c) ->
  KM_SUCCESS r = false ->
  let entries' := pre' ++ match c' with
                          | Some x => (name, x) :: post
                          | None => post
                          end in
  DeletePath root cwd pathname
  = (match os_rmdir rd entries' with
     | None => r
     | Some e => rmdir_result e
     end,
     fs_replace root comps
                match os_rmdir rd entries' with
                | None => None
                | Some _ => Some (Dir None rd entries')
                end,
     (calls_pre ++ calls_c) ++ [sys_rmdir c_pathname])
  /\ (c' <> None -> exists e, os_rmdir rd entries' = Some e).
Proof.
  intros c_pathname comps Hlook Hpre Hname Hc Hr entries'.
  split.
  - unfold DeletePath. fold c_pathname. fold comps. rewrite Hlook.
    rewrite (h__DeletePath_first_failure c_pathname rd pre post pre' calls_pre
               calls_c name c r c' (c_pathname_not_empty cwd pathname)
               Hpre Hname Hc Hr).
    reflexivity.
  - intros Hleft. subst entries'. destruct c' as [x|]; [|congruence].
    now apply os_rmdir_not_empty.
Qed.

Lemma DeletePath_first_failure_witness :
  DeletePath tree_protected_child "/" "/d"
  = (RESULT_FAIL, Some tree_protected_child, [sys_unlink "/d/a"; sys_rmdir "/d"])
  /\ (Some (File (Some EPERM)) <> None ->
      exists e,
        os_rmdir None [("a", File (Some EPERM)); ("b", File None)] = Some e).
Proof.
  apply (DeletePath_first_failure
           tree_protected_child "/" "/d" None [] [("b", File None)] [] []
           [sys_unlink "/d/a"] "a" (File (Some EPERM)) RESULT_NO_PERM
           (Some (File (Some EPERM))));
    reflexivity.
Defined.

(** C2: DeletePath at the directory "/d" that holds "a", which unlink
    refuses with EPERM, and then "b".  The deletion of "/d/a" is the first to
    fail, with RESULT_NO_PERM; the loop stops there, "b" is left and no call
    is issued for it; but the outcome is RESULT_FAIL: the rmdir of "/d",
    called without a test of result, fails on the directory that still
    holds "a" and overwrites the failure the loop was carrying. *)
Theorem DeletePath_first_failure_overwritten :
  fst (fst (h__DeletePath "/d/a" (File (Some EPERM)))) = RESULT_NO_PERM
  /\ DeletePath tree_protected_child "/" "/d"
     = (RESULT_FAIL, Some tree_protected_child,
        [sys_unlink "/d/a"; sys_rmdir "/d"])
  /\ fst (fst (DeletePath tree_protected_child "/" "/d"))
     <> fst (fst (h__DeletePath "/d/a" (File (Some EPERM)))).
Proof. repeat split; try reflexivity. discriminate. Qed.

(** The outcome is not the first failure on that tree, in the terms of
    [first_failure_is_outcome]. *)
Lemma DeletePath_outcome_is_not_first_failure :
  ~ first_failure_is_outcome tree_protected_child "/" "/d".
Proof.
  intros H.
  specialize (H None [] "a" (File (Some EPERM)) [("b", File None)]
                eq_refl eq_refl eq_refl eq_refl).
  discriminate H.
Qed.

(** C9: DeletePath of the empty string works on "/": the path is made
    absolute to the lone separator, h__DeletePath is run on the root of the
    tree and ends, for a root directory, with the rmdir of "/"; the result
    is never the empty-string error that h__DeletePath gives for "". *)
Theorem DeletePath_empty_string (root : node) (cwd : string) :
  PathMakeAbsolute cwd "" default_separator = "/"
  /\ c_pathname_of cwd "" = "/"
  /\ DeletePath root cwd "" = h__DeletePath "/" root
  /\ fst (fst (DeletePath root cwd "")) <> RESULT_NULL_STR
  /\ (forall od rd es,
         root = Dir od rd es ->
         exists calls, snd (DeletePath root cwd "") = calls ++ [sys_rmdir "/"])
  /\ (forall n, h__DeletePath "" n = (RESULT_NULL_STR, Some n, [])).
Proof.
  assert (E : DeletePath root cwd "" = h__DeletePath "/" root).
  { unfold DeletePath.
    change (c_pathname_of cwd "") with "/".
    change (PathToComponents "/" [] default_separator) with (@nil string).
    cbn [fs_lookup fs_replace].
    now destruct (h__DeletePath "/" root) as [[r n'] calls]. }
  repeat split; try reflexivity; try exact E.
  - rewrite E. now apply h__DeletePath_not_NULL_STR.
  - intros od rd es ->. rewrite E, h__DeletePath_Dir by reflexivity.
    destruct (DeletePath_scan h__DeletePath "/" es (DirScanner_Open (Dir od rd es)))
      as [[r es'] calls].
    destruct (os_rmdir rd es'); now exists calls.
  - apply h__DeletePath_empty.
Qed.

Lemma DeletePath_empty_string_witness :
  exists calls,
    snd (DeletePath tree_protected_child "/home" "") = calls ++ [sys_rmdir "/"].
Proof.
  apply (proj1 (proj2 (proj2 (proj2 (proj2
           (DeletePath_empty_string tree_protected_child "/home")))))
           None None
           [("d", Dir None None [("a", File (Some EPERM)); ("b", File None)])]).
  reflexivity.
Defined.

(** *** FindInPath *)

(** C3: FindInPath with one_shot set, on a directory whose first entry is a
    subdirectory holding a match and whose second entry matches too.  The
    loop goes on after the recursive call: two paths are added. *)
Theorem FindInPath_one_shot_after_subdirectory :
  FindInPath (Match (PathMatchGlob_new "*.txt")) "/d" tree_match_in_subdirectory
             [] true "/"
  = ["/d/sub/a.txt"; "/d/b.txt"].
Proof. reflexivity. Qed.

(** FindInPaths does stop after a root that gave a match. *)
Example FindInPaths_one_shot_stops :
  FindInPaths (Match (PathMatchGlob_new "*.txt"))
              [("/x", Dir None None [("a.txt", File None)]);
               ("/y", Dir None None [("b.txt", File None)])]
              [] true "/"
  = ["/x/a.txt"].
Proof. reflexivity. Qed.

(** In a directory without subdirectories one_shot does add at most one
    path. *)
Lemma FindInPath_scan_one_shot_flat
      (rec : string -> node -> list string -> list string)
      (Pattern_Match : string -> bool) (SearchDir : string) (separator : ascii)
      (es : list dirent) :
  Forall (fun e => PathIsDirectory (snd e) = false) es ->
  forall FoundPaths,
    List.length
      (FindInPath_scan rec Pattern_Match SearchDir true separator es FoundPaths)
    <= S (List.length FoundPaths).
Proof.
  induction 1 as [|[n c] es Hc _ IH]; intros FoundPaths; simpl.
  - auto.
  - destruct (is_hidden n); [apply IH|].
    unfold PathIsDirectory_entry. cbn [snd] in Hc. rewrite Hc.
    destruct (Ascii.eqb separator "/").
    + destruct (Pattern_Match n); [|apply IH].
      rewrite length_app. simpl. lia.
    + destruct (Pattern_Match n); [|apply IH].
      rewrite length_app. simpl. lia.
Qed.

Lemma FindInPath_one_shot_flat
      (Pattern_Match : string -> bool) (SearchDir : string) (separator : ascii)
      od rd (es : list dirent) (FoundPaths : list string) :
  Forall (fun e => PathIsDirectory (snd e) = false) es ->
  List.length
    (FindInPath Pattern_Match SearchDir (Dir od rd es) FoundPaths true separator)
  <= S (List.length FoundPaths).
Proof.
  intros H. cbn [FindInPath].
  destruct (KM_SUCCESS (DirScanner_Open (Dir od rd es))); [|lia].
  now apply FindInPath_scan_one_shot_flat.
Qed.

End FSFacts.

(** ** File writer *)

Module WriterFacts.

Import Writer.
Open Scope Z_scope.

Lemma to_ui32_to_int (n : Z) : 0 <= n < 2 ^ 32 -> to_ui32 (to_int n) = n.
Proof.
  intros H. unfold to_ui32, to_int.
  destruct (Z_lt_ge_dec n (2 ^ 31)) as [Hlt | Hge].
  - rewrite (Z.mod_small (n + 2 ^ 31)) by lia.
    replace (n + 2 ^ 31 - 2 ^ 31) with n by lia.
    apply Z.mod_small. lia.
  - replace (n + 2 ^ 31) with ((n - 2 ^ 31) + 1 * 2 ^ 32) by lia.
    rewrite Z.mod_add by lia.
    rewrite (Z.mod_small (n - 2 ^ 31)) by lia.
    replace (n - 2 ^ 31 - 2 ^ 31) with (n + (-1) * 2 ^ 32) by lia.
    rewrite Z.mod_add by lia.
    apply Z.mod_small. lia.
Qed.

(** C8: on an open writer with a buffer, a write for which the system
    reports a count other than the requested length gives RESULT_WRITEFAIL,
    in the POSIX branch (write returns -1 or a count up to the length asked
    for) and in the win32 branch (WriteFile stores the count). *)
Theorem Write_short_write_fails (w : FileWriter) (buf buf_len : Z) :
  buf <> 0 ->
  m_Handle w <> -1 ->
  0 <= buf_len < 2 ^ 32 ->
  (forall os_write,
      let n := os_write (m_Handle w) buf buf_len in
      n = -1 \/ 0 <= n <= buf_len ->
      n <> buf_len ->
      fst (Write_posix os_write w buf buf_len) = RESULT_WRITEFAIL)
  /\ (forall os_WriteFile,
         snd (os_WriteFile O (m_Handle w) buf buf_len) <> buf_len ->
         fst (Write_win32 os_WriteFile w buf buf_len) = RESULT_WRITEFAIL).
Proof.
  intros Hbuf Hh Hlen.
  apply Z.eqb_neq in Hbuf, Hh.
  split.
  - intros os_write n Hn Hne. unfold Write_posix. rewrite Hbuf, Hh. fold n.
    destruct Hn as [-> | Hn]; [reflexivity|].
    rewrite (to_ui32_to_int n) by lia.
    apply Z.eqb_neq in Hne. rewrite Hne, orb_true_r. reflexivity.
  - intros os_WriteFile Hne. unfold Write_win32.
    unfold INVALID_HANDLE_VALUE. rewrite Hbuf, Hh.
    destruct (os_WriteFile O (m_Handle w) buf buf_len) as [ok n].
    cbn [snd] in Hne. apply Z.eqb_neq in Hne. rewrite Hne, orb_true_r.
    reflexivity.
Qed.

Lemma Write_short_write_fails_witness :
  fst (Write_posix (fun _ _ _ => 3) open_writer 4096 5) = RESULT_WRITEFAIL.
Proof.
  refine (proj1 (Write_short_write_fails open_writer 4096 5 _ _ _)
                (fun _ _ _ => 3) _ _); cbn; lia.
Defined.

(** C1, as amended: with a valid handle the pending count is 0 after a
    flush that returns RESULT_OK and, in the win32 branch, after every
    flush; with an invalid handle the flush returns RESULT_STATE and leaves
    the writer as it was. *)
Theorem Writev_pending_count (w : FileWriter) (iov : h__iovec) :
  m_IOVec w = Some iov ->
  (m_Handle w = -1 ->
   forall os_writev os_WriteFile,
     Writev_posix os_writev w = Some (RESULT_STATE, w, None)
     /\ Writev_win32 os_WriteFile w = Some (RESULT_STATE, w, None))
  /\ (m_Handle w <> -1 ->
      forall os_writev,
        (exists r w' bytes_written,
            Writev_posix os_writev w = Some (r, w', bytes_written))
        /\ (forall w' bytes_written,
               Writev_posix os_writev w = Some (RESULT_OK, w', bytes_written) ->
               pending_count w' = O))
  /\ (m_Handle w <> -1 ->
      forall os_WriteFile,
        exists r w' bytes_written,
          Writev_win32 os_WriteFile w = Some (r, w', bytes_written)
          /\ pending_count w' = O).
Proof.
  intros Hiov. split; [|split].
  - intros Hh os_writev os_WriteFile.
    unfold Writev_posix, Writev_win32, INVALID_HANDLE_VALUE.
    rewrite Hiov, Hh. split; reflexivity.
  - intros Hh os_writev. apply Z.eqb_neq in Hh.
    unfold Writev_posix. rewrite Hiov, Hh.
    split.
    + destruct (_ || _); eauto.
    + intros w' bw. destruct (_ || _); [discriminate|].
      intros H. injection H as <- _. reflexivity.
  - intros Hh os_WriteFile. apply Z.eqb_neq in Hh.
    unfold Writev_win32, INVALID_HANDLE_VALUE. rewrite Hiov, Hh.
    destruct (Writev_win32_loop _ _ _ _ _) as [r bw].
    now exists r, (set_Count w iov 0), (Some bw).
Qed.

Lemma Writev_pending_count_witness :
  (exists r w' bytes_written,
      Writev_posix (fun _ _ => 5) open_writer = Some (r, w', bytes_written))
  /\ (forall w' bytes_written,
         Writev_posix (fun _ _ => 5) open_writer
         = Some (RESULT_OK, w', bytes_written) ->
         pending_count w' = O).
Proof.
  refine (proj1 (proj2 (Writev_pending_count open_writer one_pending _)) _
                (fun _ _ => 5)).
  - reflexivity.
  - discriminate.
Defined.

(** The open writer is what queueing one buffer on a fresh writer gives. *)
Example Writev_queue_one :
  Writev_queue POSIX (mk_FileWriter 3 (Some h__iovec_new)) 4096 5
  = Some (RESULT_OK, open_writer).
Proof. reflexivity. Qed.

(** The flush at that input does return RESULT_OK and empties the list. *)
Example Writev_posix_complete :
  Writev_posix (fun _ _ => 5) open_writer
  = Some (RESULT_OK, set_Count open_writer one_pending 0, Some 5).
Proof. reflexivity. Qed.

(** C1, as stated, fails on the closed writer: the flush returns
    RESULT_STATE and the buffer queued is still pending. *)
Lemma Writev_closed_writer_keeps_list :
  ~ flush_clears_list (Writev_posix (fun _ _ => 0)) closed_writer.
Proof.
  intros H.
  specialize (H ltac:(discriminate) RESULT_STATE closed_writer None eq_refl).
  discriminate H.
Qed.

(** The POSIX flush on a short write: RESULT_WRITEFAIL is returned before
    m_Count is reset and the list stays pending, where the win32 flush
    empties it. *)
Lemma Writev_posix_short_write_keeps_list :
  Writev_posix (fun _ _ => 3) open_writer
  = Some (RESULT_WRITEFAIL, open_writer, None)
  /\ pending_count open_writer = 1%nat
  /\ Writev_win32 (fun _ _ _ _ => (true, 3)) open_writer
     = Some (RESULT_WRITEFAIL, set_Count open_writer one_pending 0, Some 0).
Proof. repeat split; reflexivity. Qed.

End WriterFacts.

(** * Further properties of the code *)

(** ** Path algebra *)

Module PathExtra.

Import Path PathFacts.

(** *** Splitting a join of two paths *)

Lemma km_token_split_join (a b : string) (sep : ascii) :
  km_token_split (a ++ String sep b)%string sep
  = km_token_split a sep ++ km_token_split b sep.
Proof.
  induction a as [|c a IH]; simpl.
  - now rewrite Ascii.eqb_refl.
  - destruct (Ascii.eqb c sep); [now rewrite IH|].
    rewrite IH.
    destruct (km_token_split a sep) as [|t ts] eqn:E; [|reflexivity].
    now destruct (km_token_split_not_nil sep a).
Qed.

(** X1: the components of PathJoin(a, b) are the components of [a] followed
    by those of [b]. *)
Theorem PathToComponents_PathJoin (a b : string) (sep : ascii) :
  PathToComponents (PathJoin a b sep) [] sep
  = PathToComponents a [] sep ++ PathToComponents b [] sep.
Proof.
  unfold PathToComponents, PathJoin. cbn [app].
  now rewrite km_token_split_join, filter_app.
Qed.

(** X2: splitting an absolute join of components gives the components
    back, the empty list included. *)
Theorem PathToComponents_ComponentsToAbsolutePath
        (C : PathCompList_t) (sep : ascii) :
  Forall (component sep) C ->
  PathToComponents (ComponentsToAbsolutePath C sep) [] sep = C.
Proof.
  intros H. destruct C as [|c l].
  - unfold PathToComponents. cbn. now rewrite Ascii.eqb_refl.
  - rewrite ComponentsToAbsolutePath_cons. unfold PathToComponents. cbn [app].
    apply (split_component_tail sep (c :: l) H ""). reflexivity.
Qed.

Lemma PathToComponents_ComponentsToAbsolutePath_witness :
  PathToComponents (ComponentsToAbsolutePath ["usr"; "lib"] "/") [] "/"
  = ["usr"; "lib"].
Proof.
  apply (PathToComponents_ComponentsToAbsolutePath ["usr"; "lib"] "/"%char).
  repeat constructor.
Defined.

(** *** Canonical form *)

Lemma canonical_list_plain (p : string) (sep : ascii) :
  Forall (plain sep) (make_canonical_list (PathToComponents p [] sep) []).
Proof.
  apply make_canonical_list_plain;
    [apply PathToComponents_components | constructor].
Qed.

(** X3: the components of a canonical path are the canonical list of the
    components of the path, and none of them is "." or "..". *)
Theorem PathMakeCanonical_components (p : string) (sep : ascii) :
  PathToComponents (PathMakeCanonical p sep) [] sep
  = make_canonical_list (PathToComponents p [] sep) []
  /\ ~ In "." (PathToComponents (PathMakeCanonical p sep) [] sep)
  /\ ~ In ".." (PathToComponents (PathMakeCanonical p sep) [] sep).
Proof.
  pose proof (canonical_list_plain p sep) as Hplain.
  pose proof (plain_component sep _ Hplain) as Hcomp.
  assert (E : PathToComponents (PathMakeCanonical p sep) [] sep
              = make_canonical_list (PathToComponents p [] sep) []).
  { unfold PathMakeCanonical. destruct (PathIsAbsolute p sep).
    - now apply split_ComponentsToAbsolutePath.
    - now apply split_ComponentsToPath. }
  rewrite E. rewrite Forall_forall in Hplain.
  split; [reflexivity|]. split.
  - intros H. now destruct (Hplain _ H) as (_ & Hd & _).
  - intros H. now destruct (Hplain _ H) as (_ & _ & Hd).
Qed.

(** X4: canonicalization keeps a path absolute or relative. *)
Theorem PathMakeCanonical_PathIsAbsolute (p : string) (sep : ascii) :
  PathIsAbsolute (PathMakeCanonical p sep) sep = PathIsAbsolute p sep.
Proof.
  unfold PathMakeCanonical. destruct (PathIsAbsolute p sep).
  - apply ComponentsToAbsolutePath_absolute.
  - apply ComponentsToPath_relative, plain_component, canonical_list_plain.
Qed.

Lemma make_canonical_list_app (l1 l2 out : list string) :
  make_canonical_list (l1 ++ l2) out
  = make_canonical_list l2 (make_canonical_list l1 out).
Proof.
  revert out. induction l1 as [|i l1 IH]; intros out; simpl; [reflexivity|].
  destruct (String.eqb i ".."); [apply IH|].
  destruct (String.eqb i "."); simpl; apply IH.
Qed.

Lemma PathIsAbsolute_PathJoin (a x y : string) (sep : ascii) :
  PathIsAbsolute (PathJoin a x sep) sep = PathIsAbsolute (PathJoin a y sep) sep.
Proof. now destruct a. Qed.

Lemma PathToComponents_component (x : string) (sep : ascii) :
  component sep x -> PathToComponents x [] sep = [x].
Proof.
  intros Hx. change x with (ComponentsToPath [x] sep) at 1.
  apply split_ComponentsToPath. constructor; [exact Hx | constructor].
Qed.

Lemma component_dots (sep : ascii) :
  sep <> "."%char -> component sep "." /\ component sep "..".
Proof.
  intros H.
  assert (E : Ascii.eqb "." sep = false) by (apply Ascii.eqb_neq; congruence).
  split; (split; [reflexivity|]); cbn [contains]; now rewrite E.
Qed.

(** X5: a "." component between two paths does not change the canonical
    form. *)
Theorem PathMakeCanonical_dot (a b : string) (sep : ascii) :
  sep <> "."%char ->
  PathMakeCanonical (PathJoin a (PathJoin "." b sep) sep) sep
  = PathMakeCanonical (PathJoin a b sep) sep.
Proof.
  intros Hsep. destruct (component_dots sep Hsep) as [Hdot _].
  unfold PathMakeCanonical.
  rewrite (PathIsAbsolute_PathJoin a (PathJoin "." b sep) b).
  rewrite !PathToComponents_PathJoin, (PathToComponents_component _ _ Hdot).
  rewrite !make_canonical_list_app. reflexivity.
Qed.

Lemma PathMakeCanonical_dot_witness :
  PathMakeCanonical (PathJoin "/a" (PathJoin "." "b" "/") "/") "/"
  = PathMakeCanonical (PathJoin "/a" "b" "/") "/".
Proof. apply (PathMakeCanonical_dot "/a" "b" "/"%char). discriminate. Defined.

(** X6: a component followed by ".." cancels out in the canonical form. *)
Theorem PathMakeCanonical_dotdot (a x b : string) (sep : ascii) :
  sep <> "."%char ->
  plain sep x ->
  PathMakeCanonical (PathJoin (PathJoin a x sep) (PathJoin ".." b sep) sep) sep
  = PathMakeCanonical (PathJoin a b sep) sep.
Proof.
  intros Hsep (Hx & Hx1 & Hx2). destruct (component_dots sep Hsep) as [_ Hdd].
  unfold PathMakeCanonical.
  assert (Habs : PathIsAbsolute
                   (PathJoin (PathJoin a x sep) (PathJoin ".." b sep) sep) sep
                 = PathIsAbsolute (PathJoin a b sep) sep) by now destruct a.
  rewrite Habs.
  rewrite !PathToComponents_PathJoin, (PathToComponents_component _ _ Hx),
    (PathToComponents_component _ _ Hdd).
  rewrite !make_canonical_list_app.
  apply String.eqb_neq in Hx1, Hx2.
  cbn [make_canonical_list]. rewrite Hx2, Hx1. cbn [negb String.eqb Ascii.eqb].
  set (o := make_canonical_list (PathToComponents a [] sep) []).
  destruct (o ++ [x]) eqn:Eo; [now destruct o|].
  rewrite <- Eo. unfold pop_back. now rewrite removelast_snoc.
Qed.

Lemma PathMakeCanonical_dotdot_witness :
  PathMakeCanonical (PathJoin (PathJoin "/a" "x" "/") (PathJoin ".." "b" "/") "/") "/"
  = PathMakeCanonical (PathJoin "/a" "b" "/") "/".
Proof.
  apply (PathMakeCanonical_dotdot "/a" "x" "b" "/"%char).
  - discriminate.
  - repeat split; discriminate.
Defined.

(** *** Absolute paths *)

Lemma PathMakeCanonical_of_absolute_join (l : list string) (sep : ascii) :
  Forall (plain sep) l ->
  PathMakeCanonical (ComponentsToAbsolutePath l sep) sep
  = ComponentsToAbsolutePath l sep.
Proof.
  intros Hl. unfold PathMakeCanonical.
  rewrite ComponentsToAbsolutePath_absolute,
    (split_ComponentsToAbsolutePath sep l (plain_component sep l Hl)),
    (make_canonical_list_of_plain sep l Hl).
  reflexivity.
Qed.

Lemma PathMakeAbsolute_is_absolute (cwd p : string) :
  PathIsAbsolute (PathMakeAbsolute cwd p default_separator) default_separator
  = true.
Proof.
  unfold PathMakeAbsolute. destruct (empty p); [reflexivity|].
  destruct (PathIsAbsolute p default_separator) eqn:E.
  - now rewrite PathMakeCanonical_PathIsAbsolute.
  - apply ComponentsToAbsolutePath_absolute.
Qed.

Lemma PathMakeAbsolute_is_canonical (cwd p : string) :
  PathMakeCanonical (PathMakeAbsolute cwd p default_separator) default_separator
  = PathMakeAbsolute cwd p default_separator.
Proof.
  unfold PathMakeAbsolute. destruct (empty p); [reflexivity|].
  destruct (PathIsAbsolute p default_separator).
  - apply PathMakeCanonical_idempotent.
  - apply PathMakeCanonical_of_absolute_join, canonical_list_plain.
Qed.

(** X7: the result of PathMakeAbsolute is absolute and canonical, and
    PathMakeAbsolute gives it back whatever the working directory is. *)
Theorem PathMakeAbsolute_idempotent (cwd cwd' p : string) :
  PathIsAbsolute (PathMakeAbsolute cwd p default_separator) default_separator
  = true
  /\ PathMakeCanonical (PathMakeAbsolute cwd p default_separator)
                       default_separator
     = PathMakeAbsolute cwd p default_separator
  /\ PathMakeAbsolute cwd' (PathMakeAbsolute cwd p default_separator)
                      default_separator
     = PathMakeAbsolute cwd p default_separator.
Proof.
  pose proof (PathMakeAbsolute_is_absolute cwd p) as Habs.
  pose proof (PathMakeAbsolute_is_canonical cwd p) as Hcan.
  repeat split; try assumption.
  set (q := PathMakeAbsolute cwd p default_separator) in *.
  unfold PathMakeAbsolute at 1.
  destruct q as [|c q']; [discriminate|].
  cbn [empty]. rewrite Habs. exact Hcan.
Qed.

(** X8: a relative path is equivalent to the working directory joined with
    it, for an absolute working directory. *)
Theorem PathsAreEquivalent_cwd (cwd p : string) :
  PathIsAbsolute cwd default_separator = true ->
  empty p = false ->
  PathIsAbsolute p default_separator = false ->
  PathsAreEquivalent cwd p (PathJoin cwd p default_separator) = true.
Proof.
  intros Hcwd Hp Hrel. unfold PathsAreEquivalent. apply String.eqb_eq.
  unfold PathMakeAbsolute at 1. rewrite Hp, Hrel.
  unfold PathMakeAbsolute.
  assert (E1 : empty (PathJoin cwd p default_separator) = false)
    by now destruct cwd.
  assert (E2 : PathIsAbsolute (PathJoin cwd p default_separator)
                              default_separator = true)
    by now destruct cwd.
  rewrite E1, E2. unfold PathMakeCanonical. now rewrite E2.
Qed.

Lemma PathsAreEquivalent_cwd_witness :
  PathsAreEquivalent "/home/u" "x/y" (PathJoin "/home/u" "x/y" default_separator)
  = true.
Proof. apply (PathsAreEquivalent_cwd "/home/u" "x/y"); reflexivity. Defined.

(** *** Directory and base name *)

Lemma last_component (l : list string) (sep : ascii) :
  Forall (component sep) l -> l <> [] -> component sep (last l "").
Proof.
  intros H Hne. destruct (exists_last Hne) as (l' & x & ->).
  rewrite last_snoc. apply Forall_app in H as [_ H]. now inversion H.
Qed.

Lemma PathBasename_spec (p : string) (sep : ascii) :
  PathBasename p sep = last (PathToComponents p [] sep) "".
Proof. unfold PathBasename. now destruct (PathToComponents p [] sep). Qed.

(** X9: the base name holds no separator, and the base name of
    PathJoin(a, b) is the base name of [b] when [b] has a component. *)
Theorem PathBasename_PathJoin (a b : string) (sep : ascii) :
  contains (PathBasename b sep) sep = false
  /\ (PathToComponents b [] sep <> [] ->
      PathBasename (PathJoin a b sep) sep = PathBasename b sep).
Proof.
  split.
  - rewrite PathBasename_spec.
    destruct (PathToComponents b [] sep) as [|c l] eqn:E; [reflexivity|].
    rewrite <- E.
    apply (last_component _ sep); [apply PathToComponents_components|].
    rewrite E. discriminate.
  - intros Hb. rewrite !PathBasename_spec, PathToComponents_PathJoin.
    destruct (exists_last Hb) as (l' & x & ->).
    now rewrite app_assoc, !last_snoc.
Qed.

Lemma PathBasename_PathJoin_witness :
  PathBasename (PathJoin "/usr/lib" "a/b.txt" "/") "/" = PathBasename "a/b.txt" "/".
Proof.
  apply (proj2 (PathBasename_PathJoin "/usr/lib" "a/b.txt" "/"%char)).
  discriminate.
Defined.

Lemma removelast_components (l : list string) (sep : ascii) :
  Forall (component sep) l -> Forall (component sep) (removelast l).
Proof. apply Forall_removelast. Qed.

(** X10: joining the directory name and the base name of a path that has a
    component gives a path with the same components, and for an absolute
    path one with the same canonical form. *)
Theorem PathDirname_PathBasename (p : string) (sep : ascii) :
  PathToComponents p [] sep <> [] ->
  PathToComponents (PathJoin (PathDirname p sep) (PathBasename p sep) sep) [] sep
  = PathToComponents p [] sep
  /\ (PathIsAbsolute p sep = true ->
      PathMakeCanonical (PathJoin (PathDirname p sep) (PathBasename p sep) sep) sep
      = PathMakeCanonical p sep).
Proof.
  intros Hne.
  pose proof (PathToComponents_components sep p) as Hcomp.
  assert (Hsplit : PathToComponents
                     (PathJoin (PathDirname p sep) (PathBasename p sep) sep) [] sep
                   = PathToComponents p [] sep).
  { rewrite PathToComponents_PathJoin, PathBasename_spec.
    unfold PathDirname.
    destruct (PathToComponents p [] sep) as [|c l] eqn:E; [congruence|].
    rewrite <- E in *. unfold pop_back.
    pose proof (removelast_components _ sep Hcomp) as Hrl.
    rewrite (PathToComponents_component _ sep (last_component _ sep Hcomp Hne)).
    destruct (PathIsAbsolute p sep).
    - rewrite (split_ComponentsToAbsolutePath sep _ Hrl).
      symmetry. now apply app_removelast_last.
    - rewrite (split_ComponentsToPath sep _ Hrl).
      symmetry. now apply app_removelast_last. }
  split; [exact Hsplit|].
  intros Habs.
  assert (E : PathIsAbsolute
                (PathJoin (PathDirname p sep) (PathBasename p sep) sep) sep
              = true).
  { unfold PathDirname. rewrite Habs.
    destruct (PathToComponents p [] sep) as [|c l]; [congruence|].
    unfold PathJoin.
    pose proof (ComponentsToAbsolutePath_absolute sep (pop_back (c :: l))) as H.
    destruct (ComponentsToAbsolutePath (pop_back (c :: l)) sep);
      [discriminate | exact H]. }
  unfold PathMakeCanonical. now rewrite E, Hsplit, Habs.
Qed.

Lemma PathDirname_PathBasename_witness :
  PathToComponents
    (PathJoin (PathDirname "/usr/lib/x.so" "/") (PathBasename "/usr/lib/x.so" "/")
              "/") [] "/"
  = PathToComponents "/usr/lib/x.so" [] "/"
  /\ (PathIsAbsolute "/usr/lib/x.so" "/" = true ->
      PathMakeCanonical
        (PathJoin (PathDirname "/usr/lib/x.so" "/")
                  (PathBasename "/usr/lib/x.so" "/") "/") "/"
      = PathMakeCanonical "/usr/lib/x.so" "/").
Proof.
  apply (PathDirname_PathBasename "/usr/lib/x.so" "/"%char). discriminate.
Defined.

(** *** Extensions *)

Lemma c_str_nul_free (s : string) : nul_free s -> c_str s = s.
Proof.
  unfold nul_free. induction s as [|c s IH]; simpl; [reflexivity|].
  intros H. apply orb_false_iff in H as [Hc Hs]. now rewrite Hc, IH.
Qed.

Lemma strrchr_absent (s : string) (c : ascii) :
  contains s c = false -> strrchr s c = None.
Proof.
  induction s as [|x s IH]; simpl; [reflexivity|].
  intros H. apply orb_false_iff in H as [Hx Hs]. now rewrite IH, Hx.
Qed.

Lemma strrchr_present (s : string) (c : ascii) :
  contains s c = true -> exists k, strrchr s c = Some k.
Proof.
  induction s as [|x s IH]; simpl; [discriminate|].
  destruct (strrchr s c) as [k|] eqn:E; [now exists (S k)|].
  destruct (Ascii.eqb x c); [now exists 0|].
  intros H. now destruct (IH H).
Qed.

Lemma strrchr_last (a e : string) (c : ascii) :
  contains e c = false ->
  strrchr (a ++ String c e)%string c = Some (String.length a).
Proof.
  intros He. induction a as [|x a IH]; simpl.
  - now rewrite (strrchr_absent e c He), Ascii.eqb_refl.
  - now rewrite IH.
Qed.

Lemma length_append (a b : string) :
  String.length (a ++ b)%string = String.length a + String.length b.
Proof. induction a as [|x a IH]; simpl; [reflexivity | now rewrite IH]. Qed.

Lemma substring_all (s : string) : substring 0 (String.length s) s = s.
Proof. induction s as [|x s IH]; simpl; [reflexivity | now rewrite IH]. Qed.

Lemma substring_after (a b : string) (c : ascii) (m : nat) :
  substring (S (String.length a)) m (a ++ String c b)%string = substring 0 m b.
Proof. induction a as [|x a IH]; simpl; [reflexivity | exact IH]. Qed.

(** The string is cut at a dot that strrchr found. *)
Lemma strrchr_split (s : string) (c : ascii) (k : nat) :
  strrchr s c = Some k ->
  s = (substring 0 k s
       ++ String c (substring (S k) (String.length s - S k) s))%string.
Proof.
  revert k. induction s as [|x s IH]; intros k; simpl; [discriminate|].
  destruct (strrchr s c) as [k'|] eqn:E.
  - intros H. injection H as <-. simpl. f_equal. now apply IH.
  - destruct (Ascii.eqb x c) eqn:Ex; [|discriminate].
    intros H. injection H as <-. apply Ascii.eqb_eq in Ex. subst x.
    simpl. now rewrite Nat.sub_0_r, substring_all.
Qed.

Lemma PathBasename_no_separator (p : string) :
  contains (PathBasename p default_separator) default_separator = false.
Proof. apply (proj1 (PathBasename_PathJoin "" p default_separator)). Qed.

(** The base name without its extension, as PathSetExtension computes it. *)
Lemma stem_free (B : string) (c : ascii) :
  contains B c = false ->
  contains match strrchr (c_str B) "." with
           | Some k => substring 0 k B
           | None => B
           end c = false.
Proof.
  intros H. destruct (strrchr (c_str B) "."); [|exact H].
  now apply contains_substring.
Qed.

(** X11: reading the extension of what PathSetExtension produced gives the
    extension back, for an extension that is not empty and holds no "/", no
    "." and no NUL, and a base name without NUL. *)
Theorem PathGetExtension_PathSetExtension (p ext : string) :
  nul_free (PathBasename p default_separator) ->
  empty ext = false ->
  contains ext "/" = false ->
  contains ext "." = false ->
  nul_free ext ->
  PathGetExtension (PathSetExtension p ext) = ext.
Proof.
  intros HB Hne Hsl Hdot Hnul.
  unfold PathSetExtension. rewrite Hne.
  set (stem := match strrchr (c_str (PathBasename p default_separator)) "." with
               | Some k => substring 0 k (PathBasename p default_separator)
               | None => PathBasename p default_separator
               end).
  assert (Hstem_sl : contains stem "/" = false)
    by apply stem_free, PathBasename_no_separator.
  assert (Hstem_nul : contains stem zero = false) by now apply stem_free.
  change (stem ++ "." ++ ext)%string with (stem ++ String "." ext)%string.
  set (R := (stem ++ String "." ext)%string).
  assert (HR : component default_separator R).
  { split.
    - subst R. now destruct stem.
    - subst R. rewrite contains_append. cbn [contains].
      unfold default_separator. rewrite Hstem_sl, Hsl. reflexivity. }
  assert (HRnul : nul_free R).
  { unfold nul_free. subst R. rewrite contains_append. cbn [contains].
    rewrite Hstem_nul, Hnul. reflexivity. }
  unfold PathGetExtension.
  rewrite (PathBasename_component R HR), (c_str_nul_free R HRnul).
  subst R. rewrite (strrchr_last stem ext "." Hdot).
  rewrite substring_after, length_append. cbn [String.length].
  replace (String.length stem + S (String.length ext) - S (String.length stem))
    with (String.length ext) by lia.
  apply substring_all.
Qed.

Lemma PathGetExtension_PathSetExtension_witness :
  PathGetExtension (PathSetExtension "/home/user/report.txt" "bak") = "bak".
Proof.
  apply (PathGetExtension_PathSetExtension "/home/user/report.txt" "bak");
    reflexivity.
Defined.

(** X12: for a base name without NUL that holds a dot, the base name is
    what PathSetExtension leaves with the empty extension, a dot, and what
    PathGetExtension returns. *)
Theorem PathBasename_stem_extension (p : string) :
  nul_free (PathBasename p default_separator) ->
  contains (PathBasename p default_separator) "." = true ->
  PathBasename p default_separator
  = (PathSetExtension p "" ++ "." ++ PathGetExtension p)%string.
Proof.
  intros HB Hdot. unfold PathSetExtension, PathGetExtension.
  rewrite (c_str_nul_free _ HB).
  destruct (strrchr_present _ _ Hdot) as [k Hk]. rewrite Hk. cbn [empty].
  now apply strrchr_split.
Qed.

Lemma PathBasename_stem_extension_witness :
  PathBasename "/a/b/archive.tar.gz" default_separator
  = (PathSetExtension "/a/b/archive.tar.gz" ""
     ++ "." ++ PathGetExtension "/a/b/archive.tar.gz")%string.
Proof.
  apply (PathBasename_stem_extension "/a/b/archive.tar.gz"); reflexivity.
Defined.

(** *** PathMakeLocal *)

Lemma prefix_append (a b : string) : prefix a (a ++ b)%string = true.
Proof.
  induction a as [|x a IH]; simpl.
  - now destruct b.
  - destruct (ascii_dec x x); [exact IH | congruence].
Qed.

Lemma find_prefix (a b : string) : find (a ++ b)%string a = Some 0.
Proof.
  unfold find. pose proof (prefix_append a b) as H.
  destruct (a ++ b)%string eqn:E.
  - destruct a; [reflexivity | discriminate].
  - cbn [index]. now rewrite H.
Qed.

(** X13: PathMakeLocal takes the parent and one more character off a path
    that starts with the parent, so that it gives back the second argument
    of a PathJoin with the parent; on a path equal to the parent substr
    throws. *)
Theorem PathMakeLocal_PathJoin (Parent Path : string) (sep : ascii) :
  PathMakeLocal (PathJoin Parent Path sep) Parent = Some Path
  /\ PathMakeLocal Parent Parent = None.
Proof.
  split.
  - unfold PathMakeLocal, PathJoin. rewrite find_prefix.
    unfold substr_from. rewrite length_append. cbn [String.length].
    rewrite Nat.add_1_r.
    assert (E : Nat.leb (S (String.length Parent))
                        (String.length Parent + S (String.length Path)) = true)
      by (apply Nat.leb_le; lia).
    rewrite E, substring_after.
    replace (String.length Parent + S (String.length Path)
             - S (String.length Parent))
      with (String.length Path) by lia.
    now rewrite substring_all.
  - unfold PathMakeLocal.
    rewrite <- (append_nil_r Parent) at 1. rewrite find_prefix.
    unfold substr_from.
    assert (E : Nat.leb (String.length Parent + 1) (String.length Parent) = false)
      by (apply Nat.leb_gt; lia).
    now rewrite E.
Qed.

End PathExtra.

(** ** Pattern matcher *)

Module GlobExtra.

Import Path Glob PathFacts.

Lemma glob_ordinary_inv (c : ascii) :
  glob_ordinary c = true ->
  Ascii.eqb c zero = false /\ Ascii.eqb c "*" = false
  /\ Ascii.eqb c "?" = false /\ Ascii.eqb c "\" = false
  /\ Ascii.eqb c "[" = false /\ Ascii.eqb c "^" = false
  /\ Ascii.eqb c "$" = false.
Proof.
  unfold glob_ordinary, is_one_of. cbn [existsb].
  intros H. apply negb_true_iff in H.
  repeat (apply orb_false_iff in H; destruct H as [? H]).
  repeat split; assumption.
Qed.

Lemma all_ordinary_nul_free (g : string) : all_ordinary g = true -> nul_free g.
Proof.
  unfold nul_free. induction g as [|c g IH]; simpl; [reflexivity|].
  intros H. apply andb_true_iff in H as [Hc Hg].
  destruct (glob_ordinary_inv c Hc) as (Hz & _). now rewrite Hz, IH.
Qed.

(** The pattern emitted for a glob of ordinary characters holds no NUL. *)
Lemma glob_to_regex_nul_free (g : string) :
  all_ordinary g = true -> nul_free (glob_to_regex g ++ "$")%string.
Proof.
  unfold nul_free. induction g as [|c g IH]; [reflexivity|].
  intros H. cbn [all_ordinary] in H. apply andb_true_iff in H as [Hc Hg].
  destruct (glob_ordinary_inv c Hc) as (Hz & Hs & Hq & _).
  cbn [glob_to_regex]. rewrite Hs, Hq, append_assoc, contains_append, (IH Hg).
  destruct (Ascii.eqb c "."); cbn; [reflexivity | now rewrite Hz].
Qed.

(** What regcomp reads in the pattern emitted for such a glob: the pieces
    read before, then one literal for each character, under the end
    anchor. *)
Lemma regparse_ordinary (g : string) :
  all_ordinary g = true ->
  forall acc,
    regparse REG_BASIC acc (glob_to_regex g ++ "$")%string
    = Some (mk_regex (rev acc ++ literal_pieces g) true).
Proof.
  induction g as [|c g IH]; intros H acc.
  - cbn. now rewrite app_nil_r.
  - cbn [all_ordinary] in H. apply andb_true_iff in H as [Hc Hg].
    destruct (glob_ordinary_inv c Hc) as (Hz & Hs & Hq & Hb & Hk & Hh & Hd).
    cbn [glob_to_regex literal_pieces]. rewrite Hs, Hq.
    destruct (Ascii.eqb c ".") eqn:Edot.
    + apply Ascii.eqb_eq in Edot. subst c.
      change (regparse REG_BASIC acc (("\." ++ glob_to_regex g) ++ "$")%string)
        with (regparse REG_BASIC (One (Lit ".") :: acc)
                       (glob_to_regex g ++ "$")%string).
      rewrite (IH Hg). cbn [rev]. now rewrite <- app_assoc.
    + assert (E : regparse REG_BASIC acc
                           ((String c "" ++ glob_to_regex g) ++ "$")%string
                  = regparse REG_BASIC (One (Lit c) :: acc)
                             (glob_to_regex g ++ "$")%string).
      { cbn [append regparse]. rewrite Hb, Edot, Hk, Hs, Hq, Hd, Hh.
        now destruct (is_one_of c ["+"; "("; ")"; "|"; "{"]%char), acc. }
      rewrite E, (IH Hg). cbn [rev].
      now rewrite <- app_assoc.
Qed.

Lemma match_here_literal (g s : string) :
  match_here (literal_pieces g) true s = String.eqb g s.
Proof.
  revert s. induction g as [|c g IH]; intros s.
  - now destruct s.
  - destruct s as [|x s]; [reflexivity|].
    cbn [literal_pieces match_here atom_matches String.eqb].
    rewrite IH, (Ascii.eqb_sym x c).
    now destruct (Ascii.eqb c x).
Qed.

Lemma regexec_literal (g s : string) :
  regexec (mk_regex (literal_pieces g) true) s = suffix g s.
Proof.
  induction s as [|x s IH].
  - cbn [regexec suffix re_pieces re_anchor_end]. now rewrite match_here_literal.
  - cbn [regexec suffix re_pieces re_anchor_end].
    rewrite match_here_literal. cbn [regexec re_pieces re_anchor_end] in IH.
    now rewrite IH.
Qed.

(** X14: a glob made of ordinary characters and dots matches exactly the
    names that end with it: the pattern is anchored at the end only. *)
Theorem PathMatchGlob_ordinary (g s : string) :
  all_ordinary g = true ->
  Match (PathMatchGlob_new g) s = suffix g (c_str s).
Proof.
  intros Hg.
  unfold Match, PathMatchGlob_new, PathMatchGlob_new_with, regcomp, REG_NOSUB.
  cbn [m_regex].
  rewrite (PathExtra.c_str_nul_free g (all_ordinary_nul_free g Hg)),
    (PathExtra.c_str_nul_free _ (glob_to_regex_nul_free g Hg)),
    (regparse_ordinary g Hg []).
  apply regexec_literal.
Qed.

Lemma PathMatchGlob_ordinary_witness :
  Match (PathMatchGlob_new "a.txt") "data.txt" = suffix "a.txt" (c_str "data.txt").
Proof. apply (PathMatchGlob_ordinary "a.txt" "data.txt"). reflexivity. Defined.

(** A name that ends with the glob matches though it starts otherwise. *)
Example PathMatchGlob_not_anchored_at_start :
  Match (PathMatchGlob_new "a.txt") "data.txt" = true.
Proof. reflexivity. Qed.

(** *** A star in front *)

Lemma suffix_tail (g s : string) (x : ascii) :
  suffix g s = true -> suffix g (String x s) = true.
Proof. intros H. cbn [suffix]. rewrite H. apply orb_true_r. Qed.

Lemma match_here_star_literal (g s : string) :
  match_here (Many AnyChar :: literal_pieces g) true s = suffix g s.
Proof.
  induction s as [|x s IH].
  - cbn [match_here suffix]. now rewrite match_here_literal.
  - cbn [match_here suffix atom_matches andb] in IH |- *.
    now rewrite match_here_literal, IH.
Qed.

Lemma regexec_star_literal (g s : string) :
  regexec (mk_regex (Many AnyChar :: literal_pieces g) true) s = suffix g s.
Proof.
  induction s as [|x s IH].
  - cbn [regexec re_pieces re_anchor_end]. rewrite match_here_star_literal.
    apply orb_false_r.
  - cbn [regexec re_pieces re_anchor_end] in IH |- *.
    rewrite match_here_star_literal, IH.
    destruct (suffix g s) eqn:E.
    + now rewrite (suffix_tail g s x E).
    + apply orb_false_r.
Qed.

(** X15: with a star in front of such a glob the names matched are the
    same, those that end with the rest of the glob. *)
Theorem PathMatchGlob_star_ordinary (g s : string) :
  all_ordinary g = true ->
  Match (PathMatchGlob_new (String "*" g)) s = suffix g (c_str s).
Proof.
  intros Hg.
  unfold Match, PathMatchGlob_new, PathMatchGlob_new_with, regcomp, REG_NOSUB.
  cbn [m_regex].
  assert (Hnul : nul_free (String "*" g)).
  { unfold nul_free. cbn [contains]. apply (all_ordinary_nul_free g Hg). }
  rewrite (PathExtra.c_str_nul_free _ Hnul).
  assert (Hrnul : nul_free (glob_to_regex (String "*" g) ++ "$")%string).
  { unfold nul_free. apply (glob_to_regex_nul_free g Hg). }
  rewrite (PathExtra.c_str_nul_free _ Hrnul).
  change (regparse REG_BASIC [] (glob_to_regex (String "*" g) ++ "$")%string)
    with (regparse REG_BASIC [Many AnyChar] (glob_to_regex g ++ "$")%string).
  rewrite (regparse_ordinary g Hg [Many AnyChar]).
  apply regexec_star_literal.
Qed.

Lemma PathMatchGlob_star_ordinary_witness :
  Match (PathMatchGlob_new "*.txt") "report.txt.bak"
  = suffix ".txt" (c_str "report.txt.bak").
Proof.
  apply (PathMatchGlob_star_ordinary ".txt" "report.txt.bak"). reflexivity.
Defined.

End GlobExtra.

(** ** Recursive directory operations *)

Module FSExtra.

Import Path Glob FS PathFacts FSFacts.

(** *** Tree deletion *)

(** X16: when h__DeletePath returns RESULT_OK nothing is left at the
    path. *)
Theorem h__DeletePath_OK_removed (pathname : string) (n : node) :
  empty pathname = false ->
  fst (fst (h__DeletePath pathname n)) = RESULT_OK ->
  snd (fst (h__DeletePath pathname n)) = None.
Proof.
  intros Hp. destruct n as [e | od rd es].
  - rewrite (h__DeletePath_File _ _ Hp). unfold DeleteFile.
    destruct (os_unlink (File e)) as [[]|]; cbn; congruence.
  - rewrite (h__DeletePath_Dir _ _ _ _ Hp).
    destruct (DeletePath_scan h__DeletePath pathname es _) as [[r es'] cs].
    destruct (os_rmdir rd es') as [[]|]; cbn; congruence.
Qed.

Lemma h__DeletePath_OK_removed_witness :
  snd (fst (h__DeletePath "/d" (Dir None None [("a", File None)]))) = None.
Proof.
  apply (h__DeletePath_OK_removed "/d" (Dir None None [("a", File None)]));
    reflexivity.
Defined.

Lemma os_rmdir_this_and_parent (es : list dirent) :
  os_rmdir None (this_and_parent es) = None.
Proof.
  unfold os_rmdir, this_and_parent.
  induction es as [|[n c] es IH]; [reflexivity|].
  cbn [filter fst]. destruct (is_this_or_parent n) eqn:E; [|exact IH].
  cbn [existsb fst]. rewrite E. exact IH.
Qed.

(** The loop on entries whose deletion succeeds and removes them. *)
Lemma DeletePath_scan_all_removed
      (rec : string -> node -> Result_t * option node * list syscall)
      (calls_of : string -> node -> list syscall)
      (pathname : string) (es : list dirent) :
  Forall (fun e =>
            rec (pathname ++ "/" ++ fst e)%string (snd e)
            = (RESULT_OK, None,
               calls_of (pathname ++ "/" ++ fst e)%string (snd e)))
         es ->
  DeletePath_scan rec pathname es RESULT_OK
  = (RESULT_OK, this_and_parent es,
     flat_map (fun e =>
                 if is_this_or_parent (fst e) then []
                 else calls_of (pathname ++ "/" ++ fst e)%string (snd e)) es).
Proof.
  induction 1 as [|[n c] es Hc _ IH]; [reflexivity|].
  rewrite DeletePath_scan_cons. cbn [KM_SUCCESS negb flat_map fst snd].
  unfold this_and_parent in *. cbn [filter fst].
  destruct (is_this_or_parent n).
  - now rewrite IH.
  - cbn [fst snd] in Hc. now rewrite Hc, IH.
Qed.

(** X17: on a tree that nothing protects, which holds no socket and no
    block device, h__DeletePath returns RESULT_OK, leaves nothing and issues
    the calls of a post-order walk: every entry before its directory, in
    readdir order, "." and ".." passed over. *)
Theorem h__DeletePath_deletable (n : node) :
  deletable n = true ->
  forall pathname,
    empty pathname = false ->
    h__DeletePath pathname n = (RESULT_OK, None, post_order_calls pathname n).
Proof.
  induction n as [e | od rd es IH] using node_tree_ind; intros Hd p Hp.
  - rewrite (h__DeletePath_File _ _ Hp).
    destruct e; [discriminate | reflexivity].
  - cbn [deletable] in Hd.
    apply andb_true_iff in Hd as [Hd Hes]. apply andb_true_iff in Hd as [Hod Hrd].
    destruct od; [discriminate|]. destruct rd; [discriminate|].
    rewrite (h__DeletePath_Dir _ _ _ _ Hp).
    change (DirScanner_Open (Dir None None es)) with RESULT_OK.
    assert (Hall : Forall (fun e =>
                             h__DeletePath (p ++ "/" ++ fst e)%string (snd e)
                             = (RESULT_OK, None,
                                post_order_calls (p ++ "/" ++ fst e)%string
                                                 (snd e)))
                          es).
    { rewrite forallb_forall in Hes. rewrite Forall_forall in IH |- *.
      intros e He. apply IH; [exact He | now apply Hes | apply empty_entry_path]. }
    rewrite (DeletePath_scan_all_removed h__DeletePath post_order_calls p es Hall).
    now rewrite os_rmdir_this_and_parent.
Qed.

Lemma h__DeletePath_deletable_witness :
  h__DeletePath "/t" tree_unprotected
  = (RESULT_OK, None, post_order_calls "/t" tree_unprotected).
Proof. apply (h__DeletePath_deletable tree_unprotected); reflexivity. Defined.

(** The calls on that tree, in order. *)
Example post_order_calls_tree_unprotected :
  post_order_calls "/t" tree_unprotected
  = [sys_unlink "/t/a"; sys_unlink "/t/s/b"; sys_rmdir "/t/s"; sys_unlink "/t/c";
     sys_rmdir "/t"].
Proof. reflexivity. Qed.

(** A socket or block device is not such a tree: it passes the
    PathIsDirectory test, so that h__DeletePath takes the directory branch,
    never unlinks it, and returns RESULT_NOTAFILE from the rmdir that fails
    with ENOTDIR. *)
Example h__DeletePath_not_a_directory :
  deletable not_a_directory = false
  /\ h__DeletePath "/d/s" not_a_directory
     = (RESULT_NOTAFILE, Some not_a_directory, [sys_rmdir "/d/s"]).
Proof. split; reflexivity. Qed.

(** The entries "." and ".." stay where they are in the loop. *)
Lemma DeletePath_scan_keeps_this_and_parent
      (rec : string -> node -> Result_t * option node * list syscall)
      (pathname : string) (es : list dirent) (result : Result_t) :
  this_and_parent (snd (fst (DeletePath_scan rec pathname es result)))
  = this_and_parent es.
Proof.
  revert result. induction es as [|[n c] es IH]; intros result; [reflexivity|].
  rewrite DeletePath_scan_cons.
  destruct (KM_SUCCESS result); cbn [negb]; [|reflexivity].
  destruct (is_this_or_parent n) eqn:E.
  - specialize (IH result).
    destruct (DeletePath_scan rec pathname es result) as [[r rest] cs].
    cbn [fst snd] in *. unfold this_and_parent in *. cbn [filter fst].
    now rewrite E, IH.
  - destruct (rec (pathname ++ "/" ++ n)%string c) as [[r1 c'] cs1].
    specialize (IH r1).
    destruct (DeletePath_scan rec pathname es r1) as [[r rest] cs].
    cbn [fst snd] in *. unfold this_and_parent in *. cbn [filter fst].
    rewrite E. destruct c'; [|exact IH].
    cbn [filter fst]. now rewrite E.
Qed.

(** X18: h__DeletePath passes over the entries "." and "..": while the
    directory is still there, those entries are the ones it had, whatever
    the other deletions did. *)
Theorem h__DeletePath_keeps_this_and_parent
        (pathname : string) od rd (es : list dirent) (r : Result_t)
        od' rd' (es' : list dirent) (calls : list syscall) :
  empty pathname = false ->
  h__DeletePath pathname (Dir od rd es) = (r, Some (Dir od' rd' es'), calls) ->
  this_and_parent es' = this_and_parent es.
Proof.
  intros Hp. rewrite (h__DeletePath_Dir _ _ _ _ Hp).
  pose proof (DeletePath_scan_keeps_this_and_parent
                h__DeletePath pathname es (DirScanner_Open (Dir od rd es))) as H.
  destruct (DeletePath_scan h__DeletePath pathname es _) as [[r0 es0] cs].
  cbn [fst snd] in H.
  destruct (os_rmdir rd es0); intros E; inversion E; subst. exact H.
Qed.

Lemma h__DeletePath_keeps_this_and_parent_witness :
  this_and_parent [(".", File None); ("a", File (Some EPERM))]
  = this_and_parent
      [(".", File None); ("x", File None); ("a", File (Some EPERM))].
Proof.
  apply (h__DeletePath_keeps_this_and_parent
           "/d" None None
           [(".", File None); ("x", File None); ("a", File (Some EPERM))]
           RESULT_FAIL None None
           [(".", File None); ("a", File (Some EPERM))]
           [sys_unlink "/d/x"; sys_unlink "/d/a"; sys_rmdir "/d"]);
    reflexivity.
Defined.

(** *** FindInPath *)

Section Find.

Variable Pattern_Match : string -> bool.
Variable one_shot : bool.
Variable separator : ascii.

Lemma FindInPath_scan_cons
      (rec : string -> node -> list string -> list string)
      (SearchDir name_buf : string) (c : node) (es' : list dirent)
      (FoundPaths : list string) :
  FindInPath_scan rec Pattern_Match SearchDir one_shot separator
                  ((name_buf, c) :: es') FoundPaths
  = if is_hidden name_buf then
      FindInPath_scan rec Pattern_Match SearchDir one_shot separator es' FoundPaths
    else if PathIsDirectory_entry separator c then
      FindInPath_scan rec Pattern_Match SearchDir one_shot separator es'
                      (rec (SearchDir ++ String separator name_buf)%string c
                           FoundPaths)
    else if Pattern_Match name_buf then
      if one_shot
      then FoundPaths ++ [(SearchDir ++ String separator name_buf)%string]
      else FindInPath_scan rec Pattern_Match SearchDir one_shot separator es'
             (FoundPaths ++ [(SearchDir ++ String separator name_buf)%string])
    else
      FindInPath_scan rec Pattern_Match SearchDir one_shot separator es' FoundPaths.
Proof. reflexivity. Qed.

Lemma FindInPath_scan_appends
      (rec : string -> node -> list string -> list string)
      (SearchDir : string) (es : list dirent) :
  Forall (fun e => forall p F, rec p (snd e) F = F ++ rec p (snd e) []) es ->
  forall FoundPaths,
    FindInPath_scan rec Pattern_Match SearchDir one_shot separator es FoundPaths
    = FoundPaths
        ++ FindInPath_scan rec Pattern_Match SearchDir one_shot separator es [].
Proof.
  induction 1 as [|[n c] es Hc _ IH]; intros F.
  - cbn. now rewrite app_nil_r.
  - rewrite !FindInPath_scan_cons.
    destruct (is_hidden n); [apply IH|].
    destruct (PathIsDirectory_entry separator c).
    + cbn [snd] in Hc.
      rewrite IH, (IH (rec _ c [])), (Hc _ F), app_assoc. reflexivity.
    + destruct (Pattern_Match n); [|apply IH].
      destruct one_shot; [reflexivity|].
      rewrite IH, (IH ([] ++ _)), app_assoc. reflexivity.
Qed.

(** X19: FindInPath only adds to the list it is given: the result is that
    list followed by what the search gives from the empty list. *)
Theorem FindInPath_appends (n : node) :
  forall SearchDir FoundPaths,
    FindInPath Pattern_Match SearchDir n FoundPaths one_shot separator
    = FoundPaths ++ FindInPath Pattern_Match SearchDir n [] one_shot separator.
Proof.
  induction n as [e | od rd es IH] using node_tree_ind; intros SearchDir F.
  - cbn. now rewrite app_nil_r.
  - cbn [FindInPath].
    destruct (KM_SUCCESS (DirScanner_Open (Dir od rd es)));
      [|now rewrite app_nil_r].
    apply FindInPath_scan_appends.
    apply Forall_forall. intros e He p F'.
    rewrite Forall_forall in IH. apply (IH e He).
Qed.

End Find.

(** X20: in a directory that opens and holds no entry that passes the
    PathIsDirectory test (no subdirectory, socket or block device), a search
    without one_shot adds the path of every entry that is not hidden and
    matches, in readdir order. *)
Theorem FindInPath_flat
        (Pattern_Match : string -> bool) (SearchDir : string) (separator : ascii)
        rd (es : list dirent) (FoundPaths : list string) :
  Forall (fun e => PathIsDirectory (snd e) = false) es ->
  FindInPath Pattern_Match SearchDir (Dir None rd es) FoundPaths false separator
  = FoundPaths
      ++ map (fun e => (SearchDir ++ String separator (fst e))%string)
             (filter (fun e => negb (is_hidden (fst e)) && Pattern_Match (fst e))
                     es).
Proof.
  intros H. cbn [FindInPath].
  change (KM_SUCCESS (DirScanner_Open (Dir None rd es))) with true. cbv iota.
  revert FoundPaths. induction H as [|[n c] es Hc _ IH]; intros F.
  - cbn. now rewrite app_nil_r.
  - rewrite FindInPath_scan_cons. cbn [filter map fst snd] in *.
    destruct (is_hidden n); cbn [negb andb]; [apply IH|].
    unfold PathIsDirectory_entry. rewrite Hc.
    assert (E : (if Ascii.eqb separator "/" then false else false) = false)
      by now destruct (Ascii.eqb separator "/").
    rewrite E.
    destruct (Pattern_Match n); [|apply IH].
    rewrite IH. cbn [map]. now rewrite <- app_assoc.
Qed.

Lemma FindInPath_flat_witness :
  FindInPath (Match (PathMatchGlob_new "*.txt")) "/d"
             (Dir None None
                  [(".cache.txt", File None); ("a.txt", File None);
                   ("b.dat", File None); ("c.txt", File None)])
             ["/x"] false "/"
  = ["/x"]
      ++ map (fun e => ("/d" ++ String "/" (fst e))%string)
             (filter (fun e => negb (is_hidden (fst e))
                               && Match (PathMatchGlob_new "*.txt") (fst e))
                     [(".cache.txt", File None); ("a.txt", File None);
                      ("b.dat", File None); ("c.txt", File None)]).
Proof.
  apply (FindInPath_flat (Match (PathMatchGlob_new "*.txt")) "/d" "/"%char None).
  repeat constructor.
Defined.

(** A socket whose name matches is entered as a directory, opendir fails
    on it and its path is not reported. *)
Example FindInPath_not_a_directory :
  FindInPath (Match (PathMatchGlob_new "*.txt")) "/d"
             (Dir None None [("s.txt", not_a_directory); ("b.txt", File None)])
             [] false "/"
  = ["/d/b.txt"].
Proof. reflexivity. Qed.



(** X21: FindInPaths with one_shot set and a list that is not empty
    searches the first root only, whether or not a match is found there. *)
Theorem FindInPaths_one_shot_nonempty
        (Pattern_Match : string -> bool) (si : string) (n : node)
        (rest : list (string * node)) (FoundPaths : list string)
        (separator : ascii) :
  FoundPaths <> [] ->
  FindInPaths Pattern_Match ((si, n) :: rest) FoundPaths true separator
  = FindInPath Pattern_Match si n FoundPaths true separator.
Proof.
  intros Hne. cbn [FindInPaths].
  rewrite (FindInPath_appends Pattern_Match true separator n si FoundPaths).
  destruct FoundPaths as [|f F]; [congruence|]. reflexivity.
Qed.

Lemma FindInPaths_one_shot_nonempty_witness :
  FindInPaths (Match (PathMatchGlob_new "*.txt"))
              [("/x", Dir None None [("a.dat", File None)]);
               ("/y", Dir None None [("b.txt", File None)])]
              ["/seen"] true "/"
  = FindInPath (Match (PathMatchGlob_new "*.txt")) "/x"
               (Dir None None [("a.dat", File None)]) ["/seen"] true "/".
Proof.
  apply (FindInPaths_one_shot_nonempty
           (Match (PathMatchGlob_new "*.txt")) "/x"
           (Dir None None [("a.dat", File None)])).
  discriminate.
Defined.

(** *** Paths as the system resolves them *)

(** Where the walk arrives is where the canonical list says. *)
Lemma os_walk_canonical (root : node) (comps : list string) :
  forall cur loc,
    os_walk root cur comps = Some loc -> loc = make_canonical_list comps cur.
Proof.
  induction comps as [|c rest IH]; intros cur loc; cbn [os_walk make_canonical_list].
  - intros H. now injection H as <-.
  - destruct (fs_lookup root cur) as [[e | od rd es]|]; try discriminate.
    destruct (String.eqb c ".") eqn:E1.
    + apply String.eqb_eq in E1. subst c. cbn. apply IH.
    + destruct (String.eqb c "..") eqn:E2.
      * intros H. apply IH in H. subst loc. unfold pop_back. now destruct cur.
      * cbn [negb]. destruct (find_entry c es); [apply IH | discriminate].
Qed.

Lemma PathToComponents_c_pathname (cwd path : string) :
  empty path = false ->
  PathToComponents (c_pathname_of cwd path) [] default_separator
  = make_canonical_list
      (PathToComponents path [] default_separator)
      (if PathIsAbsolute path default_separator then [] else cwd_location cwd).
Proof.
  intros Hp. unfold c_pathname_of.
  rewrite (proj1 (proj2 (PathExtra.PathMakeAbsolute_idempotent cwd cwd path))).
  unfold PathMakeAbsolute. rewrite Hp.
  destruct (PathIsAbsolute path default_separator).
  - apply PathExtra.PathMakeCanonical_components.
  - rewrite split_ComponentsToAbsolutePath
      by apply plain_component, PathExtra.canonical_list_plain.
    rewrite PathExtra.PathToComponents_PathJoin.
    apply PathExtra.make_canonical_list_app.
Qed.

Lemma os_resolve_c_pathname (root : node) (cwd path : string) (loc : list string) :
  os_resolve root cwd path = Some loc ->
  loc = PathToComponents (c_pathname_of cwd path) [] default_separator.
Proof.
  unfold os_resolve. destruct (empty path) eqn:Hp; [discriminate|].
  intros H. apply os_walk_canonical in H.
  now rewrite (PathToComponents_c_pathname cwd path Hp).
Qed.

(** *** DeleteDirectoryIfEmpty *)

Lemma DeletePath_scan_no_other_entry
      (rec : string -> node -> Result_t * option node * list syscall)
      (pathname : string) (es : list dirent) :
  has_other_entry es = false ->
  DeletePath_scan rec pathname es RESULT_OK = (RESULT_OK, es, []).
Proof.
  induction es as [|[n c] es IH]; [reflexivity|].
  cbn [has_other_entry]. rewrite DeletePath_scan_cons. cbn [KM_SUCCESS negb].
  destruct (is_this_or_parent n); [|discriminate].
  intros H. now rewrite (IH H).
Qed.

(** X28: DeleteDirectoryIfEmpty on a path without ".." component, with the
    name getcwd gives for the working directory.  There the directory that
    opendir(path) reads and the canonical path handed to h__DeletePath are
    the same place, links or not, which a ".." after a link or a failed
    getcwd would break.  The function then issues no call and leaves the
    tree as it is, or issues the one call rmdir on the canonical path: it
    never unlinks a file; and on a directory that opens and holds an entry
    other than "." and ".." it returns RESULT_NOT_EMPTY. *)
Theorem DeleteDirectoryIfEmpty_calls (root : node) (cwd path : string) :
  PathIsAbsolute cwd default_separator = true ->
  ~ In ".." (PathToComponents path [] default_separator) ->
  (snd (DeleteDirectoryIfEmpty root cwd path) = []
   /\ snd (fst (DeleteDirectoryIfEmpty root cwd path)) = Some root
   \/ snd (DeleteDirectoryIfEmpty root cwd path)
      = [sys_rmdir (c_pathname_of cwd path)])
  /\ (forall rd es,
         os_node root cwd path = Some (Dir None rd es) ->
         has_other_entry es = true ->
         DeleteDirectoryIfEmpty root cwd path = (RESULT_NOT_EMPTY, Some root, [])).
Proof.
  intros _ _. split.
  - unfold DeleteDirectoryIfEmpty.
    destruct (os_node root cwd path) as [n|] eqn:En; [|now left].
    destruct (KM_SUCCESS (DirScanner_Open n)) eqn:Eo; cbn [negb]; [|now left].
    destruct n as [e | od rd es]; [discriminate|].
    destruct (has_other_entry es) eqn:Eh; [now left|]. right.
    unfold os_node in En.
    destruct (os_resolve root cwd path) as [loc|] eqn:Er; [|discriminate].
    apply os_resolve_c_pathname in Er. subst loc.
    unfold DeletePath. rewrite En.
    rewrite (h__DeletePath_Dir _ _ _ _ (c_pathname_not_empty cwd path)).
    destruct od as [e|]; [now destruct e|].
    change (DirScanner_Open (Dir None rd es)) with RESULT_OK.
    rewrite (DeletePath_scan_no_other_entry _ _ _ Eh).
    now destruct (os_rmdir rd es).
  - intros rd es En Eh. unfold DeleteDirectoryIfEmpty. rewrite En.
    change (DirScanner_Open (Dir None rd es)) with RESULT_OK.
    cbn [KM_SUCCESS negb]. now rewrite Eh.
Qed.

Lemma DeleteDirectoryIfEmpty_calls_witness :
  DeleteDirectoryIfEmpty tree_protected_child "/" "d"
  = (RESULT_NOT_EMPTY, Some tree_protected_child, []).
Proof.
  refine (proj2 (DeleteDirectoryIfEmpty_calls tree_protected_child "/" "d" _ _)
                None [("a", File (Some EPERM)); ("b", File None)] _ _).
  - reflexivity.
  - cbn. intros [H | []]. discriminate H.
  - reflexivity.
  - reflexivity.
Defined.

(** An empty directory is removed with the one call. *)
Example DeleteDirectoryIfEmpty_empty :
  DeleteDirectoryIfEmpty (Dir None None [("e", Dir None None [])]) "/" "e"
  = (RESULT_OK, Some (Dir None None []), [sys_rmdir "/e"]).
Proof. reflexivity. Qed.

(** *** Trees that grow *)

Lemma fs_replace_some (comps : list string) (root new : node) :
  exists r, fs_replace root comps (Some new) = Some r.
Proof.
  destruct comps as [|c rest]; [now exists new|].
  destruct root as [e | od rd es]; cbn; eauto.
Qed.

Lemma find_entry_update_other (name n : string) (f : node -> option node)
      (es : list dirent) :
  n <> name ->
  find_entry n (update_entry name f es) = find_entry n es.
Proof.
  intros Hne. induction es as [|[m c] es IH]; [reflexivity|].
  cbn [update_entry find_entry].
  destruct (String.eqb m name) eqn:E1.
  - apply String.eqb_eq in E1. subst m.
    assert (E : String.eqb name n = false)
      by (apply String.eqb_neq; congruence).
    rewrite E. destruct (f c); cbn [find_entry]; now rewrite ?E.
  - cbn [find_entry]. now rewrite IH.
Qed.

Lemma find_entry_update_same (name : string) (f : node -> option node)
      (es : list dirent) (c c' : node) :
  find_entry name es = Some c ->
  f c = Some c' ->
  find_entry name (update_entry name f es) = Some c'.
Proof.
  intros Hfind Hf. induction es as [|[m x] es IH]; [discriminate|].
  cbn [update_entry find_entry] in *.
  destruct (String.eqb m name) eqn:E1.
  - injection Hfind as ->. rewrite Hf. cbn [find_entry]. now rewrite E1.
  - cbn [find_entry]. rewrite E1. now apply IH.
Qed.

Lemma find_entry_app (name : string) (es l : list dirent) (c : node) :
  find_entry name es = Some c -> find_entry name (es ++ l) = Some c.
Proof.
  induction es as [|[m x] es IH]; [discriminate|].
  cbn [app find_entry]. destruct (String.eqb m name); [trivial | exact IH].
Qed.

Lemma find_entry_app_new (name : string) (es : list dirent) (c : node) :
  find_entry name es = None -> find_entry name (es ++ [(name, c)]) = Some c.
Proof.
  induction es as [|[m x] es IH].
  - intros _. cbn. now rewrite String.eqb_refl.
  - cbn [app find_entry]. destruct (String.eqb m name); [discriminate | exact IH].
Qed.

Lemma fs_lookup_app (a b : list string) (root : node) :
  fs_lookup root (a ++ b)
  = match fs_lookup root a with
    | Some m => fs_lookup m b
    | None => None
    end.
Proof.
  revert root. induction a as [|c a IH]; intros root; [reflexivity|].
  cbn [app fs_lookup]. destruct root as [e | od rd es]; [reflexivity|].
  destruct (find_entry c es); [apply IH | reflexivity].
Qed.

Lemma fs_lookup_set (loc : list string) :
  forall root n new,
    fs_lookup root loc = Some n ->
    fs_lookup (fs_set root loc new) loc = Some new.
Proof.
  induction loc as [|c rest IH]; intros root n new H; [reflexivity|].
  cbn [fs_lookup] in H. destruct root as [e | od rd es]; [discriminate|].
  destruct (find_entry c es) as [child|] eqn:Ec; [|discriminate].
  unfold fs_set. cbn [fs_replace fs_lookup].
  destruct (fs_replace_some rest child new) as [r Hr].
  rewrite (find_entry_update_same c _ es child r Ec Hr).
  specialize (IH child n new H). unfold fs_set in IH. now rewrite Hr in IH.
Qed.

Lemma grows_set (loc : list string) :
  forall root n n',
    fs_lookup root loc = Some n ->
    grows n n' ->
    grows root (fs_set root loc n').
Proof.
  induction loc as [|c rest IH]; intros root n n' H Hg.
  - cbn in H. injection H as ->. exact Hg.
  - cbn [fs_lookup] in H. destruct root as [e | od rd es]; [discriminate|].
    destruct (find_entry c es) as [child|] eqn:Ec; [|discriminate].
    unfold fs_set. cbn [fs_replace]. apply grows_dir.
    intros name x Hx.
    destruct (String.eqb name c) eqn:E.
    + apply String.eqb_eq in E. subst name.
      rewrite Ec in Hx. injection Hx as <-.
      destruct (fs_replace_some rest child n') as [r Hr].
      exists r. split.
      * now apply (find_entry_update_same c _ es child r).
      * specialize (IH child n n' H Hg). unfold fs_set in IH.
        now rewrite Hr in IH.
    + apply String.eqb_neq in E. exists x. split; [|apply grows_same].
      now rewrite find_entry_update_other.
Qed.

Lemma grows_dir_inv od rd (es : list dirent) (n' : node) :
  grows (Dir od rd es) n' ->
  exists es',
    n' = Dir od rd es'
    /\ forall name c,
         find_entry name es = Some c ->
         exists c', find_entry name es' = Some c' /\ grows c c'.
Proof.
  intros H. inversion H; subst.
  - exists es. split; [reflexivity|]. intros name c Hc. exists c.
    split; [exact Hc | apply grows_same].
  - exists es'. split; [reflexivity | assumption].
Qed.

Lemma grows_lookup (l : list string) :
  forall n n' m,
    grows n n' ->
    fs_lookup n l = Some m ->
    exists m', fs_lookup n' l = Some m' /\ grows m m'.
Proof.
  induction l as [|c rest IH]; intros n n' m Hg H.
  - cbn in H. injection H as <-. now exists n'.
  - cbn [fs_lookup] in H. destruct n as [e | od rd es]; [discriminate|].
    destruct (find_entry c es) as [child|] eqn:Ec; [|discriminate].
    destruct (grows_dir_inv _ _ _ _ Hg) as (es' & -> & Hes).
    destruct (Hes c child Ec) as (child' & Ec' & Hgc).
    cbn [fs_lookup]. rewrite Ec'. now apply (IH child child' m).
Qed.

Lemma find_entry_In (name : string) (es : list dirent) (c : node) :
  find_entry name es = Some c -> exists m, In (m, c) es.
Proof.
  induction es as [|[m x] es IH]; [discriminate|].
  cbn [find_entry]. destruct (String.eqb m name).
  - intros H. injection H as ->. exists m. now left.
  - intros H. destruct (IH H) as [m' Hm]. exists m'. now right.
Qed.

Lemma grows_trans (a : node) :
  forall b c, grows a b -> grows b c -> grows a c.
Proof.
  induction a as [e | od rd es IH] using node_tree_ind; intros b c Hab Hbc.
  - inversion Hab; subst. exact Hbc.
  - destruct (grows_dir_inv _ _ _ _ Hab) as (es' & -> & H1).
    destruct (grows_dir_inv _ _ _ _ Hbc) as (es'' & -> & H2).
    apply grows_dir. intros name x Hx.
    destruct (H1 name x Hx) as (x' & Hx' & Hg1).
    destruct (H2 name x' Hx') as (x'' & Hx'' & Hg2).
    exists x''. split; [exact Hx''|].
    destruct (find_entry_In _ _ _ Hx) as [m Hm].
    rewrite Forall_forall in IH.
    exact (IH (m, x) Hm x' x'' Hg1 Hg2).
Qed.

Lemma os_walk_grows (root root' : node) (comps : list string) :
  grows root root' ->
  forall cur loc,
    os_walk root cur comps = Some loc -> os_walk root' cur comps = Some loc.
Proof.
  intros Hg. induction comps as [|c rest IH]; intros cur loc; [trivial|].
  cbn [os_walk].
  destruct (fs_lookup root cur) as [[e | od rd es]|] eqn:El; try discriminate.
  destruct (grows_lookup cur root root' _ Hg El) as (m' & El' & Hgm).
  destruct (grows_dir_inv _ _ _ _ Hgm) as (es' & -> & Hes).
  rewrite El'.
  destruct (String.eqb c "."); [apply IH|].
  destruct (String.eqb c ".."); [apply IH|].
  destruct (find_entry c es) as [x|] eqn:Ex; [|discriminate].
  destruct (Hes c x Ex) as (x' & Ex' & _). rewrite Ex'. apply IH.
Qed.

Lemma PathIsDirectory_at_grows (root root' : node) (cwd path : string) :
  grows root root' ->
  PathIsDirectory_at root cwd path = true ->
  PathIsDirectory_at root' cwd path = true.
Proof.
  intros Hg. unfold PathIsDirectory_at, os_node, os_resolve.
  destruct (empty path); [trivial|].
  destruct (os_walk root _ _) as [loc|] eqn:Ew; [|discriminate].
  rewrite (os_walk_grows root root' _ Hg _ _ Ew).
  destruct (fs_lookup root loc) as [[e | od rd es]|] eqn:El; try discriminate.
  destruct (grows_lookup loc root root' _ Hg El) as (m' & El' & Hgm).
  destruct (grows_dir_inv _ _ _ _ Hgm) as (es' & -> & _).
  now rewrite El'.
Qed.

(** *** CreateDirectoriesInPath *)

Lemma os_walk_app (root : node) (a b : list string) :
  forall cur,
    os_walk root cur (a ++ b)
    = match os_walk root cur a with
      | Some mid => os_walk root mid b
      | None => None
      end.
Proof.
  induction a as [|c a IH]; intros cur; [reflexivity|].
  cbn [app os_walk].
  destruct (fs_lookup root cur) as [[e | od rd es]|]; try reflexivity.
  destruct (String.eqb c "."); [apply IH|].
  destruct (String.eqb c ".."); [apply IH|].
  destruct (find_entry c es); [apply IH | reflexivity].
Qed.

Lemma not_this_or_parent (name : string) :
  is_this_or_parent name = false ->
  String.eqb name "." = false /\ String.eqb name ".." = false.
Proof.
  intros H. split; apply String.eqb_neq; intros ->; discriminate.
Qed.

(** A mkdir that succeeds adds to the tree, and the path is a directory
    afterwards. *)
Lemma os_mkdir_grows (refuse : list string -> bool) (root root' : node)
      (cwd path : string) :
  os_mkdir refuse root cwd path = Some root' ->
  grows root root' /\ PathIsDirectory_at root' cwd path = true.
Proof.
  unfold os_mkdir. destruct (empty path) eqn:Hp; [discriminate|].
  cbv zeta.
  set (start := if PathIsAbsolute path default_separator then []
                else cwd_location cwd).
  remember (last (PathToComponents path [] default_separator) "") as name
    eqn:En.
  remember (removelast (PathToComponents path [] default_separator)) as dirs
    eqn:Edirs.
  assert (Hc : PathToComponents path [] default_separator <> [] ->
               PathToComponents path [] default_separator = dirs ++ [name])
    by (intros Hne; subst; now apply app_removelast_last).
  destruct (PathToComponents path [] default_separator) as [|c0 l0] eqn:Ec;
    [discriminate|].
  specialize (Hc ltac:(discriminate)).
  destruct (os_walk root start dirs) as [parent|] eqn:Ew; [|discriminate].
  destruct (fs_lookup root parent) as [[e | od rd es]|] eqn:El; try discriminate.
  destruct (is_this_or_parent name) eqn:Ed; [discriminate|].
  destruct (find_entry name es) eqn:Ef; [discriminate|].
  destruct (refuse (parent ++ [name])); [discriminate|].
  intros H. injection H as <-.
  set (new := Dir od rd (es ++ [(name, Dir None None [])])).
  assert (Hg : grows root (fs_set root parent new)).
  { apply (grows_set parent root (Dir od rd es) new El).
    apply grows_dir. intros n x Hx. exists x.
    split; [now apply find_entry_app | apply grows_same]. }
  split; [exact Hg|].
  unfold PathIsDirectory_at, os_node, os_resolve. rewrite Hp, Ec.
  fold start.
  rewrite Hc, os_walk_app, (os_walk_grows root _ _ Hg _ _ Ew).
  cbn [os_walk]. rewrite (fs_lookup_set parent root _ new El).
  destruct (not_this_or_parent name Ed) as [E1 E2].
  unfold new at 1. rewrite E1, E2, (find_entry_app_new name es _ Ef).
  rewrite fs_lookup_app, (fs_lookup_set parent root _ new El).
  unfold new. cbn [fs_lookup]. now rewrite (find_entry_app_new name es _ Ef).
Qed.

Section Loop.

Variable abs : bool.
Variable cwd : string.

Lemma CreateDirectories_loop_OK (refuse : list string -> bool)
      (PathComps : list string) :
  forall TmpPathComps root root',
    CreateDirectories_loop refuse abs cwd PathComps TmpPathComps root
    = (RESULT_OK, root') ->
    grows root root'
    /\ forall k,
         (0 < k <= List.length PathComps)%nat ->
         PathIsDirectory_at root' cwd
           (tmp_path_of abs (TmpPathComps ++ firstn k PathComps)) = true.
Proof.
  induction PathComps as [|front rest IH]; intros Tmp root root' H.
  - cbn in H. injection H as <-. split; [apply grows_same|].
    intros k Hk. cbn in Hk. lia.
  - cbn [CreateDirectories_loop] in H. fold (tmp_path_of abs (Tmp ++ [front])) in H.
    assert (Hstep : forall root1,
               grows root root1 ->
               PathIsDirectory_at root1 cwd (tmp_path_of abs (Tmp ++ [front])) = true ->
               CreateDirectories_loop refuse abs cwd rest (Tmp ++ [front]) root1
               = (RESULT_OK, root') ->
               grows root root'
               /\ forall k,
                    (0 < k <= List.length (front :: rest))%nat ->
                    PathIsDirectory_at root' cwd
                      (tmp_path_of abs (Tmp ++ firstn k (front :: rest))) = true).
    { intros root1 Hg1 Hd1 Hl. destruct (IH _ _ _ Hl) as [Hg Hk].
      split; [now apply (grows_trans root root1 root')|].
      intros [|k] Hlen; [lia|]. cbn [firstn List.length] in *.
      change (Tmp ++ front :: firstn k rest)
        with (Tmp ++ [front] ++ firstn k rest).
      rewrite app_assoc.
      destruct k as [|k].
      - rewrite app_nil_r.
        now apply (PathIsDirectory_at_grows root1 root').
      - apply Hk. lia. }
    destruct (PathIsDirectory_at root cwd (tmp_path_of abs (Tmp ++ [front])))
      eqn:Ed.
    + apply (Hstep root); [apply grows_same | exact Ed | exact H].
    + destruct (os_mkdir refuse root cwd (tmp_path_of abs (Tmp ++ [front])))
        as [root1|] eqn:Em; [|discriminate].
      destruct (os_mkdir_grows _ _ _ _ _ Em) as [Hg1 Hd1].
      now apply (Hstep root1).
Qed.

Lemma CreateDirectories_loop_present (refuse : list string -> bool)
      (PathComps : list string) :
  forall TmpPathComps root,
    (forall k,
        (0 < k <= List.length PathComps)%nat ->
        PathIsDirectory_at root cwd
          (tmp_path_of abs (TmpPathComps ++ firstn k PathComps)) = true) ->
    CreateDirectories_loop refuse abs cwd PathComps TmpPathComps root
    = (RESULT_OK, root).
Proof.
  induction PathComps as [|front rest IH]; intros Tmp root H; [reflexivity|].
  cbn [CreateDirectories_loop]. fold (tmp_path_of abs (Tmp ++ [front])).
  pose proof (H 1%nat ltac:(cbn; lia)) as H1. cbn [firstn] in H1.
  rewrite H1. apply IH. intros k Hk.
  specialize (H (S k) ltac:(cbn; lia)). cbn [firstn] in H.
  now rewrite <- app_assoc.
Qed.

End Loop.





(** X30: CreateDirectoriesInPath called again on the tree it returned with
    RESULT_OK returns RESULT_OK and leaves that tree as it is, whatever
    mkdir would refuse by then. *)
Theorem CreateDirectoriesInPath_again
        (refuse refuse' : list string -> bool) (root root' : node)
        (cwd Path : string) :
  CreateDirectoriesInPath refuse root cwd Path = (RESULT_OK, root') ->
  CreateDirectoriesInPath refuse' root' cwd Path = (RESULT_OK, root').
Proof.
  intros H. unfold CreateDirectoriesInPath in *.
  destruct (CreateDirectories_loop_OK _ _ _ _ _ _ _ H) as [_ Hk].
  now apply CreateDirectories_loop_present.
Qed.

Lemma CreateDirectoriesInPath_again_witness :
  CreateDirectoriesInPath
    (fun _ => true)
    (snd (CreateDirectoriesInPath (fun _ => false) tree_protected_child "/d" "x/y"))
    "/d" "x/y"
  = (RESULT_OK,
     snd (CreateDirectoriesInPath (fun _ => false) tree_protected_child "/d" "x/y")).
Proof.
  apply (CreateDirectoriesInPath_again (fun _ => false) (fun _ => true)
                                       tree_protected_child).
  reflexivity.
Defined.

(** The tree after that call: "x" and "x/y" added under "/d". *)
Example CreateDirectoriesInPath_example :
  CreateDirectoriesInPath (fun _ => false) tree_protected_child "/d" "x/y"
  = (RESULT_OK,
     Dir None None
         [("d", Dir None None
                    [("a", File (Some EPERM)); ("b", File None);
                     ("x", Dir None None [("y", Dir None None [])])])]).
Proof. reflexivity. Qed.

End FSExtra.

(** ** File writer and reader *)

Module IOExtra.

Import Writer Reader WriterFacts.
Open Scope Z_scope.

(** *** The array of queued buffers *)

Lemma array_set_length (l : list iovec) (i : nat) (e : iovec) :
  List.length (array_set l i e) = List.length l.
Proof.
  revert i. induction l as [|x l IH]; intros [|i]; simpl; auto.
Qed.

Lemma firstn_array_set (l : list iovec) (k : nat) (e : iovec) :
  firstn k (array_set l k e) = firstn k l.
Proof.
  revert k. induction l as [|x l IH]; intros [|k]; simpl; auto.
  now rewrite IH.
Qed.

Lemma firstn_S_array_set (l : list iovec) (k : nat) (e : iovec) :
  (k < List.length l)%nat ->
  firstn (S k) (array_set l k e) = firstn k l ++ [e].
Proof.
  revert k. induction l as [|x l IH]; intros k Hk; simpl in Hk; [lia|].
  destruct k as [|k]; [reflexivity|].
  cbn [array_set]. rewrite firstn_cons, IH by lia. reflexivity.
Qed.

(** Queueing buffers on a writer with room for them. *)
Lemma Writev_queue_all_room (p : platform) (h : Z) (bufs : list (Z * Z)) :
  Forall (fun b => fst b <> 0) bufs ->
  forall iov,
    List.length (m_iovec iov) = IOVecMaxEntries ->
    (m_Count iov + List.length bufs <= IOVecMaxEntries)%nat ->
    exists iov',
      Writev_queue_all p (mk_FileWriter h (Some iov)) bufs
      = Some (RESULT_OK, mk_FileWriter h (Some iov'))
      /\ m_Count iov' = (m_Count iov + List.length bufs)%nat
      /\ List.length (m_iovec iov') = IOVecMaxEntries
      /\ firstn (m_Count iov') (m_iovec iov')
         = firstn (m_Count iov) (m_iovec iov) ++ queued p bufs.
Proof.
  induction 1 as [|[buf len] bufs Hb _ IH]; intros iov Hlen Hroom.
  - exists iov. cbn. rewrite Nat.add_0_r, app_nil_r. now destruct iov.
  - cbn [fst] in Hb. cbn [List.length] in Hroom.
    cbn [Writev_queue_all]. unfold Writev_queue. cbn [m_IOVec m_Handle].
    apply Z.eqb_neq in Hb. rewrite Hb.
    assert (E : (IOVecMaxEntries <=? m_Count iov)%nat = false)
      by (apply Nat.leb_gt; lia).
    rewrite E.
    set (iov1 := mk_h__iovec (S (m_Count iov))
                   (array_set (m_iovec iov) (m_Count iov)
                              (mk_iovec buf (store_len p len)))).
    destruct (IH iov1) as (iov' & Hq & Hc & Hl & Hf).
    { subst iov1. cbn. now rewrite array_set_length. }
    { subst iov1. cbn. lia. }
    exists iov'. repeat split; try assumption.
    + rewrite Hc. subst iov1. cbn. lia.
    + rewrite Hf. subst iov1. cbn [m_Count m_iovec].
      rewrite firstn_S_array_set by lia.
      rewrite <- app_assoc. reflexivity.
Qed.

(** *** The size the POSIX flush expects *)

Lemma to_int_add_l (a b : Z) : to_int (to_int a + b) = to_int (a + b).
Proof.
  unfold to_int. f_equal.
  replace ((a + 2 ^ 31) mod 2 ^ 32 - 2 ^ 31 + b + 2 ^ 31)
    with ((a + 2 ^ 31) mod 2 ^ 32 + b) by lia.
  rewrite Z.add_mod_idemp_l by lia. f_equal. lia.
Qed.

Lemma total_size_queued (bufs : list (Z * Z)) (a : Z) :
  fold_left (fun total e => to_int (total + iov_len e)) (queued POSIX bufs)
            (to_int a)
  = to_int (a + total_len bufs).
Proof.
  revert a. induction bufs as [|[buf len] bufs IH]; intros a.
  - cbn. now rewrite Z.add_0_r.
  - change (queued POSIX ((buf, len) :: bufs))
      with (mk_iovec buf len :: queued POSIX bufs).
    change (total_len ((buf, len) :: bufs)) with (len + total_len bufs).
    cbn [fold_left iov_len]. rewrite to_int_add_l, IH. f_equal. lia.
Qed.

Lemma to_int_not_minus_one (n : Z) :
  0 <= n < 2 ^ 32 - 1 -> to_int n <> -1.
Proof.
  intros H E. pose proof (to_ui32_to_int n ltac:(lia)) as Hn.
  rewrite E in Hn. cbv in Hn. lia.
Qed.

(** X22: buffers queued on a writer just opened, at most 32 of them and
    none null, are all accepted, and the POSIX flush hands them to writev
    in the order queued; when writev reports their total length the flush
    returns RESULT_OK, stores that length and leaves the list empty. *)
Theorem Writev_queue_then_flush
        (h : Z) (bufs : list (Z * Z)) (os_writev : Z -> list iovec -> Z) :
  h <> -1 ->
  Forall (fun b => fst b <> 0) bufs ->
  (List.length bufs <= IOVecMaxEntries)%nat ->
  0 <= total_len bufs < 2 ^ 32 - 1 ->
  os_writev h (queued POSIX bufs) = total_len bufs ->
  exists w' w'',
    Writev_queue_all POSIX (fresh_writer h) bufs = Some (RESULT_OK, w')
    /\ pending_count w' = List.length bufs
    /\ Writev_posix os_writev w' = Some (RESULT_OK, w'', Some (total_len bufs))
    /\ pending_count w'' = O.
Proof.
  intros Hh Hbufs Hlen Htot Hos.
  destruct (Writev_queue_all_room POSIX h bufs Hbufs h__iovec_new)
    as (iov' & Hq & Hc & Hl & Hf); [reflexivity | cbn; lia |].
  cbn [m_Count h__iovec_new firstn app Nat.add] in Hc, Hf.
  exists (mk_FileWriter h (Some iov')), (set_Count (mk_FileWriter h (Some iov')) iov' 0).
  split; [exact Hq|]. split; [exact Hc|]. split; [|reflexivity].
  unfold Writev_posix. cbn [m_IOVec m_Handle].
  apply Z.eqb_neq in Hh. rewrite Hh, Hf, Hos.
  change 0 with (to_int 0) at 1. rewrite total_size_queued. cbn [Z.add].
  assert (E1 : (to_int (total_len bufs) =? -1) = false)
    by (apply Z.eqb_neq, to_int_not_minus_one; lia).
  rewrite E1, Z.eqb_refl. cbn [orb negb].
  now rewrite to_ui32_to_int by lia.
Qed.

Lemma Writev_queue_then_flush_witness :
  exists w' w'',
    Writev_queue_all POSIX (fresh_writer 3) [(4096, 5); (8192, 7)]
    = Some (RESULT_OK, w')
    /\ pending_count w' = List.length [(4096, 5); (8192, 7)]
    /\ Writev_posix (fun _ _ => 12) w'
       = Some (RESULT_OK, w'', Some (total_len [(4096, 5); (8192, 7)]))
    /\ pending_count w'' = O.
Proof.
  apply (Writev_queue_then_flush 3 [(4096, 5); (8192, 7)] (fun _ _ => 12)).
  - discriminate.
  - repeat constructor; discriminate.
  - unfold IOVecMaxEntries. cbn. lia.
  - unfold total_len. cbn. lia.
  - reflexivity.
Defined.

(** X23: once 32 buffers are queued every further Writev(buf, buf_len)
    with a buffer returns RESULT_WRITEFAIL and leaves the writer as it
    was. *)
Theorem Writev_queue_full
        (p : platform) (h : Z) (bufs : list (Z * Z)) :
  Forall (fun b => fst b <> 0) bufs ->
  List.length bufs = IOVecMaxEntries ->
  exists w',
    Writev_queue_all p (fresh_writer h) bufs = Some (RESULT_OK, w')
    /\ pending_count w' = IOVecMaxEntries
    /\ forall buf buf_len,
         buf <> 0 -> Writev_queue p w' buf buf_len = Some (RESULT_WRITEFAIL, w').
Proof.
  intros Hbufs Hlen.
  destruct (Writev_queue_all_room p h bufs Hbufs h__iovec_new)
    as (iov' & Hq & Hc & Hl & Hf); [reflexivity | cbn; lia |].
  cbn [m_Count h__iovec_new Nat.add] in Hc. rewrite Hlen in Hc.
  exists (mk_FileWriter h (Some iov')).
  split; [exact Hq|]. split; [exact Hc|].
  intros buf buf_len Hb. unfold Writev_queue. cbn [m_IOVec].
  apply Z.eqb_neq in Hb. rewrite Hb, Hc. reflexivity.
Qed.

Lemma Writev_queue_full_witness :
  exists w',
    Writev_queue_all POSIX (fresh_writer 3) (repeat (4096, 1) 32)
    = Some (RESULT_OK, w')
    /\ pending_count w' = IOVecMaxEntries
    /\ forall buf buf_len,
         buf <> 0 -> Writev_queue POSIX w' buf buf_len = Some (RESULT_WRITEFAIL, w').
Proof.
  apply (Writev_queue_full POSIX 3 (repeat (4096, 1) 32)).
  - apply Forall_forall. intros b Hb. apply repeat_spec in Hb. now subst b.
  - reflexivity.
Defined.

(** *** The win32 flush *)

Lemma to_ui32_range (z : Z) : 0 <= to_ui32 z < 2 ^ 32.
Proof. unfold to_ui32. apply Z.mod_pos_bound. lia. Qed.

Lemma to_ui32_add_l (a b : Z) : to_ui32 (to_ui32 a + b) = to_ui32 (a + b).
Proof. unfold to_ui32. now rewrite Z.add_mod_idemp_l by lia. Qed.

Lemma Writev_win32_loop_first_failure
      (os_WriteFile : nat -> Z -> Z -> Z -> bool * Z) (h : Z)
      (pre post : list iovec) (e : iovec) :
  forall (i : nat) (bytes_written : Z),
    0 <= bytes_written < 2 ^ 32 ->
    all_written os_WriteFile h i pre ->
    (let '(wr_result, tmp_count) :=
       os_WriteFile (i + List.length pre)%nat h (iov_base e) (to_ui32 (iov_len e)) in
     negb wr_result || negb (tmp_count =? to_ui32 (iov_len e))) = true ->
    Writev_win32_loop os_WriteFile h i (pre ++ e :: post) bytes_written
    = (RESULT_WRITEFAIL, to_ui32 (bytes_written + written_len pre)).
Proof.
  induction pre as [|x pre IH]; intros i bw Hbw Hpre Hfail.
  - cbn [app Writev_win32_loop List.length written_len fold_right] in *.
    rewrite Nat.add_0_r in Hfail.
    destruct (os_WriteFile i h (iov_base e) (to_ui32 (iov_len e))) as [ok n].
    rewrite Hfail, Z.add_0_r. unfold to_ui32. now rewrite Z.mod_small.
  - destruct Hpre as [Hx Hpre].
    cbn [app Writev_win32_loop]. rewrite Hx, Z.eqb_refl. cbn [negb orb].
    rewrite (IH (S i) (to_ui32 (bw + to_ui32 (iov_len x)))).
    + rewrite to_ui32_add_l. f_equal.
      change (written_len (x :: pre))
        with (to_ui32 (iov_len x) + written_len pre).
      f_equal. lia.
    + apply to_ui32_range.
    + exact Hpre.
    + cbn [List.length] in Hfail. now rewrite Nat.add_succ_r in Hfail.
Qed.

(** The record does not change the result of the loop. *)
Lemma Writev_win32_loop_traced_result
      (os_WriteFile : nat -> Z -> Z -> Z -> bool * Z) (h : Z)
      (pending : list iovec) :
  forall (i : nat) (bytes_written : Z),
    fst (Writev_win32_loop_traced os_WriteFile h i pending bytes_written)
    = Writev_win32_loop os_WriteFile h i pending bytes_written.
Proof.
  induction pending as [|e rest IH]; intros i bw; [reflexivity|].
  cbn [Writev_win32_loop_traced Writev_win32_loop].
  destruct (os_WriteFile i h (iov_base e) (to_ui32 (iov_len e))) as [ok n].
  destruct (negb ok || negb (n =? to_ui32 (iov_len e))); [reflexivity|].
  specialize (IH (S i) (to_ui32 (bw + n))).
  destruct (Writev_win32_loop_traced os_WriteFile h (S i) rest (to_ui32 (bw + n)))
    as [[r b] handed].
  exact IH.
Qed.

Lemma Writev_win32_loop_traced_first_failure
      (os_WriteFile : nat -> Z -> Z -> Z -> bool * Z) (h : Z)
      (pre post : list iovec) (e : iovec) :
  forall (i : nat) (bytes_written : Z),
    all_written os_WriteFile h i pre ->
    (let '(wr_result, tmp_count) :=
       os_WriteFile (i + List.length pre)%nat h (iov_base e) (to_ui32 (iov_len e)) in
     negb wr_result || negb (tmp_count =? to_ui32 (iov_len e))) = true ->
    snd (Writev_win32_loop_traced os_WriteFile h i (pre ++ e :: post) bytes_written)
    = pre ++ [e].
Proof.
  induction pre as [|x pre IH]; intros i bw Hpre Hfail.
  - cbn [app Writev_win32_loop_traced List.length] in *.
    rewrite Nat.add_0_r in Hfail.
    destruct (os_WriteFile i h (iov_base e) (to_ui32 (iov_len e))) as [ok n].
    now rewrite Hfail.
  - destruct Hpre as [Hx Hpre].
    cbn [app Writev_win32_loop_traced]. rewrite Hx, Z.eqb_refl. cbn [negb orb].
    cbn [List.length] in Hfail. rewrite Nat.add_succ_r in Hfail.
    specialize (IH (S i) (to_ui32 (bw + to_ui32 (iov_len x))) Hpre Hfail).
    destruct (Writev_win32_loop_traced os_WriteFile h (S i) (pre ++ e :: post) _)
      as [[r b] handed].
    cbn [snd] in *. now rewrite IH.
Qed.

(** X24: in the win32 flush, when the write of a queued buffer is the
    first to fail or to come up short, the flush returns RESULT_WRITEFAIL,
    reports the bytes of the buffers written before it and empties the
    list; the buffers handed to WriteFile are those before the failing one
    and the failing one: the buffers after it are dropped unwritten. *)
Theorem Writev_win32_first_failure
        (os_WriteFile : nat -> Z -> Z -> Z -> bool * Z)
        (w : FileWriter) (iov : h__iovec) (pre post : list iovec) (e : iovec) :
  m_IOVec w = Some iov ->
  m_Handle w <> -1 ->
  firstn (m_Count iov) (m_iovec iov) = pre ++ e :: post ->
  all_written os_WriteFile (m_Handle w) 0 pre ->
  (let '(wr_result, tmp_count) :=
     os_WriteFile (List.length pre) (m_Handle w) (iov_base e)
                  (to_ui32 (iov_len e)) in
   negb wr_result || negb (tmp_count =? to_ui32 (iov_len e))) = true ->
  Writev_win32 os_WriteFile w
  = Some (RESULT_WRITEFAIL, set_Count w iov 0, Some (to_ui32 (written_len pre)))
  /\ Writev_win32_loop_traced os_WriteFile (m_Handle w) 0
                              (firstn (m_Count iov) (m_iovec iov)) 0
     = (RESULT_WRITEFAIL, to_ui32 (written_len pre), pre ++ [e]).
Proof.
  intros Hiov Hh Hq Hpre Hfail.
  pose proof (Writev_win32_loop_first_failure
                os_WriteFile (m_Handle w) pre post e 0%nat 0
                ltac:(lia) Hpre Hfail) as Hloop.
  cbn [Z.add] in Hloop.
  split.
  - unfold Writev_win32, INVALID_HANDLE_VALUE.
    apply Z.eqb_neq in Hh. now rewrite Hiov, Hh, Hq, Hloop.
  - rewrite Hq.
    pose proof (Writev_win32_loop_traced_result
                  os_WriteFile (m_Handle w) (pre ++ e :: post) 0%nat 0) as Hr.
    pose proof (Writev_win32_loop_traced_first_failure
                  os_WriteFile (m_Handle w) pre post e 0%nat 0 Hpre Hfail) as Hs.
    rewrite Hloop in Hr.
    destruct (Writev_win32_loop_traced os_WriteFile (m_Handle w) 0
                                       (pre ++ e :: post) 0) as [[r b] handed].
    cbn [fst snd] in Hr, Hs. injection Hr as -> ->. now rewrite Hs.
Qed.

Lemma Writev_win32_first_failure_witness :
  Writev_win32 (fun i _ _ len => (true, if Nat.eqb i 1 then 2 else len))
               three_pending_writer
  = Some (RESULT_WRITEFAIL, set_Count three_pending_writer three_pending 0, Some 5)
  /\ Writev_win32_loop_traced
       (fun i _ _ len => (true, if Nat.eqb i 1 then 2 else len))
       3 0 (firstn 3 (m_iovec three_pending)) 0
     = (RESULT_WRITEFAIL, 5, [mk_iovec 4096 5; mk_iovec 8192 7]).
Proof.
  apply (Writev_win32_first_failure
           (fun i _ _ len => (true, if Nat.eqb i 1 then 2 else len))
           three_pending_writer three_pending
           [mk_iovec 4096 5] [mk_iovec 12288 9] (mk_iovec 8192 7)).
  - reflexivity.
  - discriminate.
  - reflexivity.
  - split; [reflexivity | exact I].
  - reflexivity.
Defined.

(** *** The reader *)

(** Once Close has run the handle is invalid; Close, Seek, Tell and
    Read then return RESULT_FILEOPEN, Read storing a count of 0, while Write
    and the flush on a writer with that handle return RESULT_STATE. *)
Theorem closed_handle_results
        (handle : Z) (os_lseek : Z -> Z -> Z -> Z) (os_read os_write : Z -> Z -> Z -> Z)
        (os_writev : Z -> list iovec -> Z) (iov : h__iovec)
        (position whence pos buf buf_len : Z) :
  pos <> 0 ->
  buf <> 0 ->
  let closed := snd (Close handle) in
  closed = -1
  /\ fst (Close closed) = RESULT_FILEOPEN
  /\ Seek os_lseek closed position whence = RESULT_FILEOPEN
  /\ Tell os_lseek closed pos = (RESULT_FILEOPEN, None)
  /\ Read os_read closed buf buf_len = (RESULT_FILEOPEN, Some 0)
  /\ Write_posix os_write (mk_FileWriter closed (Some iov)) buf buf_len
     = (RESULT_STATE, None)
  /\ Writev_posix os_writev (mk_FileWriter closed (Some iov))
     = Some (RESULT_STATE, mk_FileWriter closed (Some iov), None).
Proof.
  intros Hpos Hbuf closed.
  assert (E : closed = -1).
  { subst closed. unfold Close. destruct (handle =? -1) eqn:Eh; [|reflexivity].
    now apply Z.eqb_eq in Eh. }
  rewrite E. apply Z.eqb_neq in Hpos, Hbuf.
  unfold Seek, Tell, Read, Write_posix, Writev_posix. cbn [m_Handle m_IOVec].
  rewrite Hpos, Hbuf. repeat split; reflexivity.
Qed.

Lemma closed_handle_results_witness :
  snd (Close 3) = -1
  /\ fst (Close (snd (Close 3))) = RESULT_FILEOPEN.
Proof.
  pose proof (closed_handle_results
                3 (fun _ _ _ => 0) (fun _ _ _ => 0) (fun _ _ _ => 0)
                (fun _ _ => 0) one_pending 0 0 1 4096 5
                ltac:(discriminate) ltac:(discriminate)) as H.
  exact (conj (proj1 H) (proj1 (proj2 H))).
Defined.

(** X26: Read on an open reader, for a count that read reports within the
    length asked for: -1 gives RESULT_READFAIL and 0 RESULT_ENDOFFILE, both
    with a count of 0 stored; any other count gives RESULT_OK with that
    count. *)
Theorem Read_results
        (os_read : Z -> Z -> Z -> Z) (handle buf buf_len : Z) :
  handle <> -1 ->
  buf <> 0 ->
  0 <= buf_len < 2 ^ 32 - 1 ->
  let n := os_read handle buf buf_len in
  n = -1 \/ 0 <= n <= buf_len ->
  Read os_read handle buf buf_len
  = if n =? -1 then (RESULT_READFAIL, Some 0)
    else if n =? 0 then (RESULT_ENDOFFILE, Some 0)
    else (RESULT_OK, Some n).
Proof.
  intros Hh Hbuf Hlen n Hn. unfold Read. fold n.
  apply Z.eqb_neq in Hh, Hbuf. rewrite Hbuf, Hh.
  destruct Hn as [-> | Hn]; [reflexivity|].
  assert (E1 : (n =? -1) = false) by (apply Z.eqb_neq; lia).
  assert (E2 : (to_int n =? -1) = false)
    by (apply Z.eqb_neq, to_int_not_minus_one; lia).
  rewrite E1, E2, (to_ui32_to_int n) by lia.
  destruct (n =? 0) eqn:E0.
  - apply Z.eqb_eq in E0. now rewrite E0.
  - assert (E3 : (to_int n =? 0) = false).
    { apply Z.eqb_neq. intros H0.
      pose proof (to_ui32_to_int n ltac:(lia)) as Hr. rewrite H0 in Hr.
      apply Z.eqb_neq in E0. change (to_ui32 0) with 0 in Hr. lia. }
    now rewrite E3.
Qed.

Lemma Read_results_witness :
  Read (fun _ _ _ => 0) 3 4096 16 = (RESULT_ENDOFFILE, Some 0).
Proof.
  apply (Read_results (fun _ _ _ => 0) 3 4096 16); cbn; lia.
Defined.

End IOExtra.

(** ** Path tests on stat *)

Module StatExtra.

Import Path Stat.
Open Scope Z_scope.

Lemma mask_tests_all (t : file_type) :
  forallb (fun k => mask_tests_agree t (Z.of_nat k)) (seq 0 4096) = true.
Proof. destruct t; vm_compute; reflexivity. Qed.

Lemma mask_tests (t : file_type) (perm : Z) :
  0 <= perm < 4096 -> mask_tests_agree t perm = true.
Proof.
  intros H. pose proof (mask_tests_all t) as Hall.
  rewrite forallb_forall in Hall.
  specialize (Hall (Z.to_nat perm)).
  rewrite Z2Nat.id in Hall by lia. apply Hall.
  apply in_seq. lia.
Qed.

Lemma c_str_not_empty (s : string) : empty (c_str s) = false -> empty s = false.
Proof. now destruct s. Qed.

(** X27: the path tests are mask tests on st_mode, whose type field is a
    number and not a set of flags.  For a path that stat can read, whatever
    the permission bits: PathExists is false for a FIFO and true for every
    other type; PathIsFile is true for regular files and links and also for
    character devices, block devices and sockets; PathIsDirectory is true
    for directories and also for block devices and sockets. *)
Theorem path_tests_by_file_type
        (pathname : string) (t : file_type) (perm size : Z) :
  empty (c_str pathname) = false ->
  0 <= perm < 4096 ->
  let info := Some (mk_fstat (type_bits t + perm) size) in
  PathExists pathname info = exists_for t
  /\ PathIsFile pathname info = is_file_for t
  /\ PathIsDirectory pathname info = is_directory_for t.
Proof.
  intros Hc Hperm info.
  pose proof (mask_tests t perm Hperm) as H.
  unfold mask_tests_agree in H.
  apply andb_true_iff in H as [H H3]. apply andb_true_iff in H as [H1 H2].
  apply Bool.eqb_prop in H1, H2, H3.
  unfold PathExists, PathIsFile, PathIsDirectory, do_stat.
  rewrite (c_str_not_empty _ Hc), Hc. subst info. cbn [mode_of st_mode].
  rewrite <- H1, <- H2, <- H3.
  destruct (Z.land (type_bits t + perm) (Z.lor (Z.lor S_IFREG S_IFLNK) S_IFDIR) =? 0);
    repeat split; reflexivity.
Qed.

Lemma path_tests_by_file_type_witness :
  PathExists "/run/sock" (Some (mk_fstat (type_bits FT_SOCK + 493) 0))
  = exists_for FT_SOCK
  /\ PathIsFile "/run/sock" (Some (mk_fstat (type_bits FT_SOCK + 493) 0))
     = is_file_for FT_SOCK
  /\ PathIsDirectory "/run/sock" (Some (mk_fstat (type_bits FT_SOCK + 493) 0))
     = is_directory_for FT_SOCK.
Proof.
  apply (path_tests_by_file_type "/run/sock" FT_SOCK 493 0).
  - reflexivity.
  - lia.
Defined.

End StatExtra.
